(** * Shallow embedding of covasim/framework/model.py

    The file models [ParsObj], [Result], [Sim], [single_run] and [multi_run].
    Python objects live in a heap of [Sim] objects (so that deep copies and
    in-place mutation are explicit), Python exceptions are an [exn] value,
    and the global random stream of numpy is part of the world state. *)

From Stdlib Require Import ZArith QArith Qround String List Bool Lia Lqa.
Import ListNotations.

Open Scope string_scope.
Open Scope Z_scope.

(** ** Python values *)

(** Values stored in a parameter dict: [None], ints, floats (as rationals)
    and strings. *)
Inductive pval :=
| PNone
| PInt (z : Z)
| PFloat (q : Q)
| PStr (s : string).

(** ** Python dicts as insertion-ordered association lists *)

Section Assoc.
Context {K V : Type} (eqb : K -> K -> bool).

(** [d[k]] *)
Fixpoint assoc_get (d : list (K * V)) (k : K) : option V :=
  match d with
  | [] => None
  | (k', v) :: d' => if eqb k k' then Some v else assoc_get d' k
  end.

(** [d[k] = v]: overwrite in place, or append a new key at the end. *)
Fixpoint assoc_set (d : list (K * V)) (k : K) (v : V) : list (K * V) :=
  match d with
  | [] => [(k, v)]
  | (k', v') :: d' =>
      if eqb k k' then (k', v) :: d' else (k', v') :: assoc_set d' k v
  end.

(** [d.update(m)] *)
Definition assoc_update (d m : list (K * V)) : list (K * V) :=
  fold_left (fun acc kv => assoc_set acc (fst kv) (snd kv)) m d.

(** [k in d] *)
Definition assoc_mem (k : K) (d : list (K * V)) : bool :=
  existsb (eqb k) (map fst d).
End Assoc.

Definition dict := list (string * pval).
Definition dict_get : dict -> string -> option pval := assoc_get String.eqb.
Definition dict_set : dict -> string -> pval -> dict := assoc_set String.eqb.
Definition dict_update : dict -> dict -> dict := assoc_update String.eqb.
Definition dict_mem (k : string) (d : dict) : bool := assoc_mem String.eqb k d.
Definition keys (d : dict) : list string := map fst d.

(** ** Exceptions

    The spec's error names map onto the raise sites of the source:
    UnknownParameter is the [KeyError] of [ParsObj] and of the override
    loop of [single_run], AmbiguousNoiseParameter is the [KeyError] of the
    noise-parameter guess, InconsistentIterationLength is the [ValueError]
    of the [iterpars] length check. The message says which one it is. *)
Inductive errmsg :=
| MsgMissingKey (key : string)                      (* plain dict lookup: the message is the key *)
| MsgDidYouMean (key suggestion : string)           (* __setitem__, with a suggestion *)
| MsgAvailableKeys (key : string) (all_keys : list string) (* __setitem__, no suggestion *)
| MsgMismatches (mismatches available : list string)  (* update_pars *)
| MsgNoiseGuess (guesses found : list string)       (* single_run, noise parameter guess *)
| MsgBadOverride (key : string)                     (* single_run, extra keyword argument *)
| MsgIterLength (n new_n : Z)                       (* multi_run, iterpars lengths *)
| MsgSeedAndRandomize                               (* Sim.set_seed *)
| MsgBroadcast.                                     (* numpy shape mismatch *)

Inductive exn :=
| KeyError (m : errmsg)
| ValueError (m : errmsg)
| TypeError
| IndexError
| Dangling (l : nat).   (* dereferencing a dead object: never happens in Python *)

(** ** Python arithmetic used by the source *)

(** [x + y] on parameter values (used by [new_sim['seed'] += ind]). *)
Definition py_add (x y : pval) : option pval :=
  match x, y with
  | PInt a, PInt b => Some (PInt (a + b))
  | PInt a, PFloat b => Some (PFloat (inject_Z a + b))
  | PFloat a, PInt b => Some (PFloat (a + inject_Z b))
  | PFloat a, PFloat b => Some (PFloat (a + b))
  | _, _ => None
  end.

(** [x * f] with [f] a float (used by [new_sim[noisepar] *= noisefactor]). *)
Definition py_mul_float (x : pval) (f : Q) : option pval :=
  match x with
  | PInt a => Some (PFloat (inject_Z a * f))
  | PFloat a => Some (PFloat (a * f))
  | _ => None
  end.

Fixpoint str_repeat (s : string) (k : nat) : string :=
  match k with O => EmptyString | S k' => s ++ str_repeat s k' end.

(** [x * n] with [n] an int (used by [pars['n'] *= n]); a string is repeated. *)
Definition py_mul_int (x : pval) (n : Z) : option pval :=
  match x with
  | PInt a => Some (PInt (a * n))
  | PFloat a => Some (PFloat (a * inject_Z n))
  | PStr s => Some (PStr (str_repeat s (Z.to_nat n)))
  | PNone => None
  end.

(** [x >= 1] (the [verbose>=1] tests). *)
Definition py_ge1 (x : pval) : option bool :=
  match x with
  | PInt a => Some (1 <=? a)
  | PFloat a => Some (Qle_bool 1 a)
  | _ => None
  end.

(** ** [Result]: a named float array; [RArray] is a bare numpy array. *)
Record Result := mkResult {
  r_name : string;
  r_values : list Q;
  r_scale : bool;
  r_ispercentage : bool
}.

Inductive resval :=
| RArray (vals : list Q)
| RResult (r : Result).

Fixpoint vadd (xs ys : list Q) : list Q :=
  match xs, ys with
  | x :: xs', y :: ys' => (x + y)%Q :: vadd xs' ys'
  | _, _ => []
  end.

(** [a += b] on result entries. numpy adds arrays element-wise (broadcasting
    a length-1 right operand). [Result] defines neither [__add__],
    [__iadd__] nor [__radd__], so any [+=] involving a [Result] raises
    [TypeError]. *)
Definition res_iadd (a b : resval) : exn + resval :=
  match a, b with
  | RArray xs, RArray ys =>
      if Nat.eqb (length xs) (length ys) then inr (RArray (vadd xs ys))
      else match ys with
           | [y] => inr (RArray (map (fun x => (x + y)%Q) xs))
           | _ => inl (ValueError MsgBroadcast)
           end
  | _, _ => inl TypeError
  end.

(** ** [Sim] objects *)

(** The attributes of a [Sim] that the source touches: [pars], [people]
    (a dict from person id to the person's attribute dict), [results] and
    [results_keys] (set by the disease model's [init_results]). *)
Record Sim := mkSim {
  pars : dict;
  people : list (Z * dict);
  results : list (string * resval);
  results_keys : list string
}.

Definition set_pars (s : Sim) (p : dict) : Sim :=
  mkSim p (people s) (results s) (results_keys s).

(** [ParsObj.__init__] / [update_pars(pars, create=True)] on a fresh
    object: [hasattr(self, 'pars')] is false, so [self.pars = pars]. *)
Definition sim_init (p : dict) : Sim := mkSim p [] [] [].

(** ** Outcome of a Python call: a value or a raised exception *)
Inductive outcome (A : Type) :=
| Ok (a : A)
| Raise (e : exn).
Arguments Ok {A} a.
Arguments Raise {A} e.

Definition loc := nat.

(** list[i] = x on an in-range index. *)
Fixpoint list_set {A} (xs : list A) (i : nat) (x : A) : list A :=
  match xs, i with
  | [], _ => []
  | _ :: xs', O => x :: xs'
  | y :: xs', S i' => y :: list_set xs' i' x
  end.

Section Engine.

(** The global numpy random stream, as left by [cov_ut.set_seed] and
    consumed by [np.random.normal]. *)
Variable Rng : Type.
(** [cov_ut.set_seed(seed)]; [PNone] randomizes. *)
Variable rng_seed : pval -> Rng.
(** [np.random.normal()]: one draw and the advanced stream. *)
Variable rng_normal : Rng -> Q * Rng.
(** [Sim.run(verbose=...)], supplied by the disease model: it updates the
    simulation it is called on and consumes the random stream. *)
Variable run_sim : pval -> Sim -> Rng -> Sim * Rng.
(** [sc.suggest(key, keys)]: closest key by edit distance, if any. *)
Variable suggest : string -> list string -> option string.

(** The world: the heap of [Sim] objects, the random stream, and the
    number of worker jobs dispatched by [sc.parallelize]. *)
Record World := mkWorld {
  heap : list Sim;
  rng : Rng;
  jobs : nat
}.

Definition M (A : Type) : Type := World -> outcome A * World.

Definition ret {A} (a : A) : M A := fun w => (Ok a, w).
Definition raise {A} (e : exn) : M A := fun w => (Raise e, w).
Definition bind {A B} (m : M A) (f : A -> M B) : M B :=
  fun w => match m w with
           | (Ok a, w') => f a w'
           | (Raise e, w') => (Raise e, w')
           end.

Local Notation "x <- m ;; k" := (bind m (fun x => k))
  (at level 61, m at next level, right associativity).
Local Notation "m ;; k" := (bind m (fun _ => k))
  (at level 61, right associativity).

(** An operation that fails with [e] where the Python value is missing. *)
Definition lift {A} (o : option A) (e : exn) : M A :=
  match o with Some a => ret a | None => raise e end.

Definition load (l : loc) : M Sim :=
  fun w => match nth_error (heap w) l with
           | Some s => (Ok s, w)
           | None => (Raise (Dangling l), w)
           end.

Definition store (l : loc) (s : Sim) : M unit :=
  fun w => if Nat.ltb l (length (heap w))
           then (Ok tt, mkWorld (list_set (heap w) l s) (rng w) (jobs w))
           else (Raise (Dangling l), w).

Definition alloc (s : Sim) : M loc :=
  fun w => (Ok (length (heap w)), mkWorld (heap w ++ [s]) (rng w) (jobs w)).

Definition get_rng : M Rng := fun w => (Ok (rng w), w).
Definition set_rng (r : Rng) : M unit :=
  fun w => (Ok tt, mkWorld (heap w) r (jobs w)).

(** [sc.dcp(sim)]: a [Sim] holds no references to other objects in this
    model, so the deep copy is a fresh object with the same contents. *)
Definition dcp (sim : loc) : M loc :=
  s <- load sim;; alloc s.

(** *** ParsObj *)

(** [__getitem__]: [return self.pars[key]]. *)
Definition getitem (self : loc) (key : string) : M pval :=
  s <- load self;;
  lift (dict_get (pars s) key) (KeyError (MsgMissingKey key)).

(** [__setitem__]. *)
Definition setitem (self : loc) (key : string) (value : pval) : M unit :=
  s <- load self;;
  if dict_mem key (pars s) then
    store self (set_pars s (dict_set (pars s) key value))
  else
    match suggest key (keys (pars s)) with
    | Some sug =>
        if String.eqb sug "" (* an empty suggestion is falsy *)
        then raise (KeyError (MsgAvailableKeys key (keys (pars s))))
        else raise (KeyError (MsgDidYouMean key sug))
    | None => raise (KeyError (MsgAvailableKeys key (keys (pars s))))
    end.

(** [update_pars] on a constructed object ([hasattr(self, 'pars')] holds;
    the argument is a dict, so neither the [TypeError] nor the
    [pars is not None] test fires). *)
Definition update_pars (self : loc) (p : dict) (create : bool) : M unit :=
  s <- load self;;
  let available_keys := keys (pars s) in
  let mismatches :=
    filter (fun key => negb (existsb (String.eqb key) available_keys)) (keys p) in
  if negb create && negb (Nat.eqb (length mismatches) 0) then
    raise (KeyError (MsgMismatches mismatches available_keys))
  else
    store self (set_pars s (dict_update (pars s) p)).

(** *** Sim.set_seed *)
Definition set_seed (self : loc) (seed : pval) (randomize : bool) : M unit :=
  if randomize then
    match seed with
    | PNone => set_rng (rng_seed PNone)
    | _ => raise (ValueError MsgSeedAndRandomize)
    end
  else
    match seed with
    | PNone => s <- getitem self "seed";; set_rng (rng_seed s)
    | _ => setitem self "seed" seed;; set_rng (rng_seed seed)
    end.

(** [Sim.run(verbose=verbose)] on the object at [self]. *)
Definition run (self : loc) (verbose : pval) : M unit :=
  s <- load self;;
  r <- get_rng;;
  let '(s', r') := run_sim verbose s r in
  store self s';; set_rng r'.

(** An operation that re-raises an exception computed by a pure step. *)
Definition lift_sum {A} (x : exn + A) : M A :=
  match x with inr a => ret a | inl e => raise e end.

(** *** single_run *)

Definition guesses : list string := ["r_contact"; "r0"; "beta"].

(** [found = [guess for guess in guesses if guess in sim.pars.keys()]] *)
Definition noise_found (p : dict) : list string :=
  filter (fun guess => dict_mem guess p) guesses.

(** [if verbose is None: verbose = new_sim['verbose']] *)
Definition resolve_verbose (new_sim : loc) (verbose : pval) : M pval :=
  match verbose with
  | PNone => getitem new_sim "verbose"
  | _ => ret verbose
  end.

(** [new_sim['seed'] += ind; new_sim.set_seed()] *)
Definition reseed (new_sim : loc) (ind : pval) : M unit :=
  seed <- getitem new_sim "seed";;
  seed' <- lift (py_add seed ind) TypeError;;
  setitem new_sim "seed" seed';;
  set_seed new_sim PNone false.

(** The guess of the noise parameter; it reads the template [sim]. *)
Definition resolve_noisepar (sim : loc) (noisepar : option string) : M string :=
  match noisepar with
  | Some k => ret k
  | None =>
      s <- load sim;;
      let found := noise_found (pars s) in
      match found with
      | [k] => ret k
      | _ => raise (KeyError (MsgNoiseGuess guesses found))
      end
  end.

(** [noisefactor = 1 + noiseval if noiseval > 0 else 1/(1-noiseval)] *)
Definition noise_factor (noiseval : Q) : Q :=
  if negb (Qle_bool noiseval 0) then (1 + noiseval)%Q
  else (1 / (1 - noiseval))%Q.

(** [np.random.normal()] *)
Definition draw_normal : M Q :=
  fun w => let '(v, r) := rng_normal (rng w) in
           (Ok v, mkWorld (heap w) r (jobs w)).

(** [noiseval = noise*np.random.normal(); ...; new_sim[noisepar] *= noisefactor] *)
Definition apply_noise (new_sim : loc) (noise : Q) (noisepar : string) : M Q :=
  v <- draw_normal;;
  let noiseval := (noise * v)%Q in
  let noisefactor := noise_factor noiseval in
  x <- getitem new_sim noisepar;;
  x' <- lift (py_mul_float x noisefactor) TypeError;;
  setitem new_sim noisepar x';;
  ret noisefactor.

(** The loop over the extra keyword arguments. As in the source, the
    assignment [new_sim[key] = val] sits inside [if verbose>=1:]. *)
Fixpoint apply_overrides (new_sim : loc) (verbose : pval) (kwargs : dict) : M unit :=
  match kwargs with
  | [] => ret tt
  | (key, val) :: rest =>
      s <- load new_sim;;
      if dict_mem key (pars s) then
        loud <- lift (py_ge1 verbose) TypeError;;
        (if loud then _ <- getitem new_sim key;; setitem new_sim key val
         else ret tt);;
        apply_overrides new_sim verbose rest
      else raise (KeyError (MsgBadOverride key))
  end.

(** [single_run] up to, not including, [new_sim.run(verbose=verbose)]:
    the clone and the verbosity it will run with. [sim_args] is unused by
    the source and left out. *)
Definition single_run_prep (sim : loc) (ind : pval) (noise : Q)
    (noisepar : option string) (verbose : pval) (kwargs : dict) : M (loc * pval) :=
  new_sim <- dcp sim;;
  verbose <- resolve_verbose new_sim verbose;;
  reseed new_sim ind;;
  noisepar <- resolve_noisepar sim noisepar;;
  noisefactor <- apply_noise new_sim noise noisepar;;
  _ <- lift (py_ge1 verbose) TypeError;; (* if verbose>=1: print(...) *)
  apply_overrides new_sim verbose kwargs;;
  ret (new_sim, verbose).

Definition single_run (sim : loc) (ind : pval) (noise : Q)
    (noisepar : option string) (verbose : pval) (kwargs : dict) : M loc :=
  p <- single_run_prep sim ind noise noisepar verbose kwargs;;
  run (fst p) (snd p);;
  ret (fst p).

(** *** multi_run *)

(** The [iterpars] loop: [n] is reset to [None], then each entry's length
    must equal the previous one. *)
Fixpoint iter_n (n : option Z) (iterpars : list (string * list pval)) : exn + option Z :=
  match iterpars with
  | [] => inr n
  | (key, val) :: rest =>
      let new_n := Z.of_nat (length val) in
      match n with
      | Some n0 =>
          if negb (new_n =? n0) then inl (ValueError (MsgIterLength n0 new_n))
          else iter_n (Some new_n) rest
      | None => iter_n (Some new_n) rest
      end
  end.

(** [np.arange(n)] *)
Definition arange (n : Z) : list Z := map Z.of_nat (seq 0 (Z.to_nat n)).

(** The calls made by [sc.parallelize] from
    [iterkwargs = {'ind': np.arange(n)}; iterkwargs.update(iterpars)]:
    call [i] gets [ind] (from [iterpars] when it has an ['ind'] entry) and
    the other [iterpars] entries, at position [i], as [**kwargs]. Keys
    naming the other arguments of [single_run] are not modelled. *)
Definition make_tasks (n : Z) (iterpars : list (string * list pval)) : list (pval * dict) :=
  map (fun i =>
         let k := Z.to_nat i in
         let ind := match assoc_get String.eqb iterpars "ind" with
                    | Some vals => nth k vals PNone
                    | None => PInt i
                    end in
         (ind, map (fun kv => (fst kv, nth k (snd kv) PNone))
                   (filter (fun kv => negb (String.eqb (fst kv) "ind")) iterpars)))
      (arange n).

(** One worker process: it runs [single_run] on its own copy of the world
    and sends the resulting [Sim] back. *)
Definition worker (sim : loc) (noise : Q) (noisepar : option string) (verbose : pval)
    (w : World) (task : pval * dict) : exn + Sim :=
  match single_run sim (fst task) noise noisepar verbose (snd task) w with
  | (Ok l, w') =>
      match nth_error (heap w') l with
      | Some s => inr s
      | None => inl (Dangling l)
      end
  | (Raise e, _) => inl e
  end.

(** The first failure, in task order, is re-raised. *)
Fixpoint collect {A} (xs : list (exn + A)) : exn + list A :=
  match xs with
  | [] => inr []
  | inl e :: _ => inl e
  | inr a :: xs' =>
      match collect xs' with inr l => inr (a :: l) | inl e => inl e end
  end.

(** [sc.parallelize(single_run, iterkwargs=..., kwargs=...)]: the parent
    dispatches one job per task; workers share nothing with it. *)
Definition parallelize (sim : loc) (noise : Q) (noisepar : option string)
    (verbose : pval) (tasks : list (pval * dict)) : M (list Sim) :=
  fun w =>
    let w' := mkWorld (heap w) (rng w) (jobs w + length tasks) in
    match collect (map (worker sim noise noisepar verbose w) tasks) with
    | inr sims => (Ok sims, w')
    | inl e => (Raise e, w')
    end.

(** [for key in sim.results_keys: output_sim.results[key] += sim.results[key]] *)
Fixpoint merge_results (out src : list (string * resval)) (ks : list string)
    : exn + list (string * resval) :=
  match ks with
  | [] => inr out
  | key :: ks' =>
      match assoc_get String.eqb out key with
      | None => inl (KeyError (MsgMissingKey key))
      | Some a =>
          match assoc_get String.eqb src key with
          | None => inl (KeyError (MsgMissingKey key))
          | Some b =>
              match res_iadd a b with
              | inr c => merge_results (assoc_set String.eqb out key c) src ks'
              | inl e => inl e
              end
          end
      end
  end.

(** The body of [for sim in sims[1:]]. *)
Fixpoint merge_sims (out : Sim) (rest : list Sim) : exn + Sim :=
  match rest with
  | [] => inr out
  | s :: rest' =>
      let ppl := assoc_update Z.eqb (people out) (people s) in
      match merge_results (results out) (results s) (results_keys s) with
      | inr r => merge_sims (mkSim (pars out) ppl r (results_keys out)) rest'
      | inl e => inl e
      end
  end.

(** The [combine=True] branch, on the list of returned sims. *)
Definition combine_sims (n : Z) (sims : list Sim) : exn + Sim :=
  match sims with
  | [] => inl IndexError
  | s0 :: rest =>
      let p := dict_set (pars s0) "parallelized" (PInt n) in
      match dict_get p "n" with
      | None => inl (KeyError (MsgMissingKey "n"))
      | Some nv =>
          match py_mul_int nv n with
          | None => inl TypeError
          | Some nv' => merge_sims (set_pars s0 (dict_set p "n" nv')) rest
          end
      end
  end.

Inductive multi_out :=
| Sims (sims : list Sim)
| Combined (s : Sim).

(** [multi_run]; [sim_args] is unused by the source and its own [**kwargs]
    are discarded (the name is rebound before use). *)
Definition multi_run (sim : loc) (n : Z) (noise : Q) (noisepar : option string)
    (iterpars : option (list (string * list pval))) (verbose : pval)
    (combine : bool) : M multi_out :=
  let ip := match iterpars with None => [] | Some ip => ip end in
  n <- (match iterpars with
        | None => ret (Some n)
        | Some ip => lift_sum (iter_n None ip)
        end);;
  n <- lift n TypeError;; (* np.arange(None) *)
  sims <- parallelize sim noise noisepar verbose (make_tasks n ip);;
  if combine then s <- lift_sum (combine_sims n sims);; ret (Combined s)
  else ret (Sims sims).

End Engine.

Arguments mkWorld {Rng}.
Arguments heap {Rng}.
Arguments rng {Rng}.
Arguments jobs {Rng}.
Arguments ret {Rng A}.
Arguments raise {Rng A}.
Arguments bind {Rng A B}.
Arguments lift {Rng A}.
Arguments lift_sum {Rng A}.
Arguments load {Rng}.
Arguments store {Rng}.
Arguments alloc {Rng}.
Arguments get_rng {Rng}.
Arguments set_rng {Rng}.
Arguments dcp {Rng}.
Arguments getitem {Rng}.
Arguments setitem {Rng}.
Arguments update_pars {Rng}.
Arguments set_seed {Rng}.
Arguments run {Rng}.
Arguments resolve_verbose {Rng}.
Arguments reseed {Rng}.
Arguments resolve_noisepar {Rng}.
Arguments draw_normal {Rng}.
Arguments apply_noise {Rng}.
Arguments apply_overrides {Rng}.
Arguments single_run_prep {Rng}.
Arguments single_run {Rng}.
Arguments worker {Rng}.
Arguments parallelize {Rng}.
Arguments multi_run {Rng}.

(** ** A concrete world used to exercise the statements

    A stream that is just a counter, a normal draw of [1/2], a [run] that
    only advances the stream, and an [sc.suggest] that never finds a match. *)
Module Demo.
Definition Rng := Z.
Definition rng_seed (v : pval) : Rng := match v with PInt z => z | _ => 0 end.
Definition rng_normal (r : Rng) : Q * Rng := ((1 # 2)%Q, r + 1).
Definition run_sim (verbose : pval) (s : Sim) (r : Rng) : Sim * Rng := (s, r + 100).
Definition suggest (key : string) (ks : list string) : option string := None.

Definition template_pars : dict :=
  [("seed", PInt 1); ("verbose", PInt 0); ("beta", PFloat (1 # 2)); ("n", PInt 10)].
Definition template : Sim := sim_init template_pars.
Definition w0 : World Rng := mkWorld [template] 0 0.

(** A template with two candidate noise parameters, ['r0'] and ['beta']. *)
Definition template_two : Sim :=
  sim_init [("seed", PInt 7); ("verbose", PInt 1); ("r0", PFloat 2); ("beta", PFloat (1 # 2))].
Definition w_two : World Rng := mkWorld [template_two] 0 0.

(** A disease model whose [run] fills one [Result] series of [npts = 11]
    points, as the models built on this framework do in [init_results]:
    ten points of [2*seed+3] and a final 0, so seeds 1 and 2 give series
    summing to 50 and 70. *)
Definition ts_values (seed : Z) : list Q := repeat (inject_Z (2 * seed + 3)) 10 ++ [0%Q].
Definition run_sim_ts (verbose : pval) (s : Sim) (r : Rng) : Sim * Rng :=
  let seed := match dict_get (pars s) "seed" with Some (PInt z) => z | _ => 0 end in
  (mkSim (pars s) (people s)
     [("new_infections", RResult (mkResult "new_infections" (ts_values seed) true false))]
     ["new_infections"], r + 100).
End Demo.

(** ** Message shapes of the spec's UnknownParameter raised by [__setitem__] *)
Definition unknown_parameter_msg (key : string) (m : errmsg) : Prop :=
  (exists sug, m = MsgDidYouMean key sug) \/ (exists ks, m = MsgAvailableKeys key ks).

(** ** Frame and result predicates on computations *)

(** [frame N m]: run from a world with at least [N] objects, [m] keeps at
    least [N] objects and leaves the first [N] of them untouched. *)
Definition frame {Rng A} (N : nat) (m : M Rng A) : Prop :=
  forall w, (N <= length (heap w))%nat ->
    (N <= length (heap (snd (m w))))%nat /\
    forall j, (j < N)%nat -> nth_error (heap (snd (m w))) j = nth_error (heap w) j.

(** [returns N P m]: every value [m] returns (from such a world) satisfies [P]. *)
Definition returns {Rng A} (N : nat) (P : A -> Prop) (m : M Rng A) : Prop :=
  forall w a w', (N <= length (heap w))%nat -> m w = (Ok a, w') -> P a.

(** [keeps_rng m]: [m] leaves the random stream where it was. *)
Definition keeps_rng {Rng A} (m : M Rng A) : Prop :=
  forall w, rng (snd (m w)) = rng w.

(** [no_guess m]: [m] never raises the KeyError of the noise-parameter
    guess (the spec's AmbiguousNoiseParameter). *)
Definition no_guess {Rng A} (m : M Rng A) : Prop :=
  forall w e w', m w = (Raise e, w') -> forall gs fs, e <> KeyError (MsgNoiseGuess gs fs).

(** ** Observations on returned objects *)

(** The sum of the values of the result series [key] of a sim. *)
Definition series_sum (s : Sim) (key : string) : option Q :=
  match assoc_get String.eqb (results s) key with
  | Some (RResult r) => Some (fold_right Qplus 0%Q (r_values r))
  | Some (RArray xs) => Some (fold_right Qplus 0%Q xs)
  | None => None
  end.

(** The parameter [key] of the sim a call returned (by its location). *)
Definition returned_par {Rng} (r : outcome loc * World Rng) (key : string) : option pval :=
  match r with
  | (Ok l, w') =>
      match nth_error (heap w') l with Some s => dict_get (pars s) key | None => None end
  | (Raise _, _) => None
  end.

(** ** The rest of the module: [Result], [Sim.npts], [Sim.tvec], [_make_resdict] *)

(** [int(x)] on a number: truncation toward zero. *)
Definition py_int_q (q : Q) : Z := Z.quot (Qnum q) (Zpos (Qden q)).

(** [int(x)] on the numbers [py_add] returns. *)
Definition py_int (v : pval) : option Z :=
  match v with
  | PInt z => Some z
  | PFloat q => Some (py_int_q q)
  | _ => None
  end.

(** [np.arange(x)] on a number: [0, 1, ...] below [x], as ints for an int
    and as floats for a float (so [ceil(x)] points for a positive float). *)
Definition np_arange (x : pval) : option (list pval) :=
  match x with
  | PInt k => Some (map PInt (arange k))
  | PFloat q => Some (map (fun i => PFloat (inject_Z i)) (arange (Qceiling q)))
  | _ => None
  end.

(** [Result.__init__(name, values, npts, scale, ispercentage)], with
    [values] and [npts] either [None] or given (numbers). The result is
    [None] exactly where [np.zeros(int(npts))] raises its [ValueError]
    (a negative size). *)
Definition result_init (name : string) (values : option (list Q)) (npts : option Q)
    (scale ispercentage : bool) : option Result :=
  match values with
  | Some vs => Some (mkResult name vs scale ispercentage)
  | None =>
      match npts with
      | Some q =>
          let k := py_int_q q in
          if k <? 0 then None
          else Some (mkResult name (repeat 0%Q (Z.to_nat k)) scale ispercentage)
      | None => Some (mkResult name [] scale ispercentage)
      end
  end.

(** [Result.npts]: [len(self.values)]. *)
Definition result_npts (r : Result) : nat := length (r_values r).

(** The position a numpy integer index [i] denotes in an array of length
    [n]: negative indices count from the end; [None] is an [IndexError]. *)
Definition np_index (n : nat) (i : Z) : option nat :=
  let nz := Z.of_nat n in
  if (0 <=? i) && (i <? nz) then Some (Z.to_nat i)
  else if (- nz <=? i) && (i <? 0) then Some (Z.to_nat (nz + i))
  else None.

(** [Result.__getitem__] with an integer index: [self.values[i]]. *)
Definition result_getitem (r : Result) (i : Z) : exn + Q :=
  match np_index (length (r_values r)) i with
  | Some k =>
      match nth_error (r_values r) k with Some x => inr x | None => inl IndexError end
  | None => inl IndexError
  end.

(** [Result.__setitem__] with an integer index: [self.values[i] = x]. *)
Definition result_setitem (r : Result) (i : Z) (x : Q) : exn + Result :=
  match np_index (length (r_values r)) i with
  | Some k =>
      inr (mkResult (r_name r) (list_set (r_values r) k x) (r_scale r) (r_ispercentage r))
  | None => inl IndexError
  end.

(** The values of a result entry: [res.values] for a [Result], the array
    itself otherwise. *)
Definition res_values (r : resval) : list Q :=
  match r with RArray v => v | RResult r => r_values r end.

(** Values of the dict built by [_make_resdict]. *)
Inductive rdval :=
| RDKeys (ks : list string)
| RDValues (vals : list Q).

Section SimMethods.
Context {Rng : Type}.

Local Notation "x <- m ;; k" := (bind m (fun x => k))
  (at level 61, m at next level, right associativity).

(** [Sim.npts]: [int(self['n_days'] + 1)]. *)
Definition sim_npts (self : loc) : M Rng Z :=
  nd <- getitem self "n_days";;
  x <- lift (py_add nd (PInt 1)) TypeError;;
  lift (py_int x) TypeError.

(** [Sim.tvec]: [np.arange(self['n_days'] + 1)]. *)
Definition sim_tvec (self : loc) : M Rng (list pval) :=
  nd <- getitem self "n_days";;
  x <- lift (py_add nd (PInt 1)) TypeError;;
  lift (np_arange x) TypeError.

(** The loop of [_make_resdict] over [self.results.items()]: a numpy array
    is iterable, so with [for_json] false an entry is kept when its length
    is [self.npts], evaluated anew at each entry. *)
Fixpoint resdict_loop (self : loc) (for_json : bool) (resdict : list (string * rdval))
    (items : list (string * resval)) : M Rng (list (string * rdval)) :=
  match items with
  | [] => ret resdict
  | (key, res) :: rest =>
      let vals := res_values res in
      keep <- (if for_json then ret true
               else n <- sim_npts self;; ret (Z.of_nat (length vals) =? n));;
      resdict_loop self for_json
        (if keep then assoc_set String.eqb resdict key (RDValues vals) else resdict) rest
  end.

(** [Sim._make_resdict(for_json)]; [reskeys] is the [self.reskeys]
    attribute, set by the disease model. *)
Definition make_resdict (self : loc) (reskeys : list string) (for_json : bool)
    : M Rng (list (string * rdval)) :=
  s <- load self;;
  let resdict := if for_json then [("timeseries_keys", RDKeys reskeys)] else [] in
  resdict_loop self for_json resdict (results s).

End SimMethods.

(** ** Lemmas about the building blocks *)

Section Facts.
Context {Rng : Type}.

Lemma bind_ok {A B} (m : M Rng A) (f : A -> M Rng B) w a w' :
  m w = (Ok a, w') -> bind m f w = f a w'.
Proof. intros H. unfold bind. now rewrite H. Qed.

Lemma bind_raise {A B} (m : M Rng A) (f : A -> M Rng B) w e w' :
  m w = (Raise e, w') -> bind m f w = (Raise e, w').
Proof. intros H. unfold bind. now rewrite H. Qed.

Lemma load_ok (w : World Rng) l s :
  nth_error (heap w) l = Some s -> load l w = (Ok s, w).
Proof. intros H. unfold load. now rewrite H. Qed.

Lemma load_bad (w : World Rng) l :
  nth_error (heap w) l = None -> load l w = (Raise (Dangling l), w).
Proof. intros H. unfold load. now rewrite H. Qed.
End Facts.

Lemma assoc_get_set_same {K V} (eqb : K -> K -> bool)
  (Heqb : forall x y, eqb x y = true <-> x = y) (d : list (K * V)) k v :
  assoc_get eqb (assoc_set eqb d k v) k = Some v.
Proof.
  induction d as [|[k' v'] d IH]; cbn.
  - now rewrite (proj2 (Heqb k k) eq_refl).
  - destruct (eqb k k') eqn:E; cbn; rewrite ?E; auto.
Qed.

Lemma assoc_get_set_other {K V} (eqb : K -> K -> bool)
  (Heqb : forall x y, eqb x y = true <-> x = y) (d : list (K * V)) k k0 v :
  k0 <> k -> assoc_get eqb (assoc_set eqb d k v) k0 = assoc_get eqb d k0.
Proof.
  intros Hne. induction d as [|[k' v'] d IH]; cbn.
  - destruct (eqb k0 k) eqn:E; auto. apply Heqb in E. congruence.
  - destruct (eqb k k') eqn:E; cbn.
    + apply Heqb in E. subst k'.
      destruct (eqb k0 k) eqn:E'; auto. apply Heqb in E'. congruence.
    + destruct (eqb k0 k'); auto.
Qed.

Lemma string_eqb_spec' : forall x y, String.eqb x y = true <-> x = y.
Proof. exact String.eqb_eq. Qed.

Lemma dict_get_set_same d k v : dict_get (dict_set d k v) k = Some v.
Proof. apply assoc_get_set_same, string_eqb_spec'. Qed.

Lemma dict_get_set_other d k k0 v :
  k0 <> k -> dict_get (dict_set d k v) k0 = dict_get d k0.
Proof. apply assoc_get_set_other, string_eqb_spec'. Qed.

Lemma dict_mem_get d k : dict_mem k d = true <-> exists v, dict_get d k = Some v.
Proof.
  unfold dict_mem, assoc_mem, dict_get.
  induction d as [|[k' v'] d IH]; cbn.
  - split; [discriminate | intros [v H]; discriminate].
  - destruct (String.eqb k k'); cbn.
    + split; eauto.
    + exact IH.
Qed.

Lemma dict_mem_false_get d k : dict_mem k d = false -> dict_get d k = None.
Proof.
  intros H. destruct (dict_get d k) eqn:E; auto.
  assert (dict_mem k d = true) by (apply dict_mem_get; eauto). congruence.
Qed.

Lemma dict_get_mem d k v : dict_get d k = Some v -> dict_mem k d = true.
Proof. intros H. apply dict_mem_get. eauto. Qed.

Lemma length_list_set {A} (xs : list A) i x : length (list_set xs i x) = length xs.
Proof.
  revert i. induction xs as [|y xs IH]; intros [|i]; cbn; auto.
Qed.

Lemma nth_error_list_set_same {A} (xs : list A) i x :
  (i < length xs)%nat -> nth_error (list_set xs i x) i = Some x.
Proof.
  revert i. induction xs as [|y xs IH]; intros [|i] H; cbn in *; try lia; auto.
  apply IH. lia.
Qed.

Lemma nth_error_list_set_other {A} (xs : list A) i j x :
  i <> j -> nth_error (list_set xs i x) j = nth_error xs j.
Proof.
  revert i j. induction xs as [|y xs IH]; intros [|i] [|j] H; cbn; auto; try congruence.
Qed.

Lemma nth_error_lt {A} (xs : list A) i x : nth_error xs i = Some x -> (i < length xs)%nat.
Proof. intros H. apply nth_error_Some. congruence. Qed.

Lemma dict_get_not_in d k : ~ In k (keys d) -> dict_get d k = None.
Proof.
  unfold dict_get, keys. induction d as [|[k' v'] d IH]; cbn; intros H; auto.
  destruct (String.eqb k k') eqn:E.
  - apply String.eqb_eq in E. subst. exfalso. auto.
  - apply IH. auto.
Qed.

Lemma dict_update_get d m k :
  NoDup (keys m) ->
  dict_get (dict_update d m) k =
  match dict_get m k with Some v => Some v | None => dict_get d k end.
Proof.
  unfold dict_update, assoc_update.
  revert d. induction m as [|[k0 v0] m IH]; intros d Hnd; cbn; auto.
  inversion Hnd as [|? ? Hnotin Hnd']; subst.
  rewrite IH by exact Hnd'.
  fold (dict_set d k0 v0). fold (dict_get m k).
  destruct (String.eqb k k0) eqn:E.
  - apply String.eqb_eq in E. subst k0.
    rewrite (dict_get_not_in m k Hnotin). apply dict_get_set_same.
  - destruct (dict_get m k); auto.
    apply dict_get_set_other. intros ->. rewrite String.eqb_refl in E. discriminate.
Qed.

Section ParsFacts.
Context {Rng : Type} (suggest : string -> list string -> option string).

Lemma getitem_ok (w : World Rng) l s k v :
  nth_error (heap w) l = Some s -> dict_get (pars s) k = Some v ->
  getitem l k w = (Ok v, w).
Proof.
  intros Hl Hk. unfold getitem. rewrite (bind_ok _ _ w s w) by now apply load_ok.
  cbn. now rewrite Hk.
Qed.

Lemma getitem_missing (w : World Rng) l s k :
  nth_error (heap w) l = Some s -> dict_get (pars s) k = None ->
  getitem l k w = (Raise (KeyError (MsgMissingKey k)), w).
Proof.
  intros Hl Hk. unfold getitem. rewrite (bind_ok _ _ w s w) by now apply load_ok.
  cbn. now rewrite Hk.
Qed.

Lemma setitem_ok (w : World Rng) l s k v :
  nth_error (heap w) l = Some s -> dict_mem k (pars s) = true ->
  setitem suggest l k v w =
    (Ok tt, mkWorld (list_set (heap w) l (set_pars s (dict_set (pars s) k v))) (rng w) (jobs w)).
Proof.
  intros Hl Hk. unfold setitem. rewrite (bind_ok _ _ w s w) by now apply load_ok.
  rewrite Hk. unfold store.
  apply nth_error_lt in Hl. apply Nat.ltb_lt in Hl. now rewrite Hl.
Qed.

Lemma setitem_absent (w : World Rng) l s k v :
  nth_error (heap w) l = Some s -> dict_mem k (pars s) = false ->
  exists m, setitem suggest l k v w = (Raise (KeyError m), w) /\ unknown_parameter_msg k m.
Proof.
  intros Hl Hk. unfold setitem. rewrite (bind_ok _ _ w s w) by now apply load_ok.
  rewrite Hk. unfold unknown_parameter_msg.
  destruct (suggest k (keys (pars s))) as [sug|].
  - destruct (String.eqb sug "").
    + eexists; split; [reflexivity | right; eauto].
    + eexists; split; [reflexivity | left; eauto].
  - eexists; split; [reflexivity | right; eauto].
Qed.
End ParsFacts.

(** ** ParsObj *)

(** C7: on a parameter store holding [key], [set(key, v)] succeeds and a
    following [get(key)] returns [v]; on a store without [key], [set(key, v)]
    raises the UnknownParameter [KeyError] and leaves the whole world, the
    store included, exactly as it was. *)
Theorem setitem_getitem_roundtrip {Rng} suggest (w : World Rng) l s key v :
  nth_error (heap w) l = Some s ->
  (dict_mem key (pars s) = true ->
     exists w', setitem suggest l key v w = (Ok tt, w') /\ fst (getitem l key w') = Ok v) /\
  (dict_mem key (pars s) = false ->
     exists m, setitem suggest l key v w = (Raise (KeyError m), w) /\
               unknown_parameter_msg key m).
Proof.
  intros Hl. split; intros Hk.
  - eexists. split; [exact (setitem_ok suggest w l s key v Hl Hk)|].
    erewrite getitem_ok; [reflexivity| |].
    + cbn. apply nth_error_list_set_same. eapply nth_error_lt; eauto.
    + apply dict_get_set_same.
  - exact (setitem_absent suggest w l s key v Hl Hk).
Qed.

Lemma setitem_getitem_roundtrip_witness :
  (exists w', setitem Demo.suggest 0%nat "beta" (PFloat 3) Demo.w0 = (Ok tt, w') /\
              fst (getitem 0%nat "beta" w') = Ok (PFloat 3)) /\
  (exists m, setitem Demo.suggest 0%nat "bta" (PFloat 3) Demo.w0 = (Raise (KeyError m), Demo.w0) /\
             unknown_parameter_msg "bta" m).
Proof.
  split.
  - apply (proj1 (setitem_getitem_roundtrip Demo.suggest Demo.w0 0 Demo.template "beta"
                    (PFloat 3) eq_refl)). reflexivity.
  - apply (proj2 (setitem_getitem_roundtrip Demo.suggest Demo.w0 0 Demo.template "bta"
                    (PFloat 3) eq_refl)). reflexivity.
Defined.

(** C8: [get(key)] returns the stored value when [key] is present; when it
    is absent, [__getitem__] is a plain [self.pars[key]] and raises the
    dict's own [KeyError(key)], whose message is the key alone: no suggested
    near-match and no list of valid keys (only [__setitem__] builds those). *)
Theorem getitem_missing_key_message {Rng} (w : World Rng) l s key :
  nth_error (heap w) l = Some s ->
  (forall v, dict_get (pars s) key = Some v -> getitem l key w = (Ok v, w)) /\
  (dict_mem key (pars s) = false ->
     getitem l key w = (Raise (KeyError (MsgMissingKey key)), w) /\
     ~ unknown_parameter_msg key (MsgMissingKey key)).
Proof.
  intros Hl. split.
  - intros v Hv. exact (getitem_ok w l s key v Hl Hv).
  - intros Hk. split.
    + apply (getitem_missing w l s key Hl). now apply dict_mem_false_get.
    + intros [[sug H] | [ks H]]; discriminate.
Qed.

Lemma getitem_missing_key_message_witness :
  getitem 0%nat "beta" Demo.w0 = (Ok (PFloat (1 # 2)), Demo.w0) /\
  getitem 0%nat "bta" Demo.w0 = (Raise (KeyError (MsgMissingKey "bta")), Demo.w0) /\
  ~ unknown_parameter_msg "bta" (MsgMissingKey "bta").
Proof.
  destruct (getitem_missing_key_message Demo.w0 0 Demo.template "bta" eq_refl) as [_ H].
  split.
  - apply (proj1 (getitem_missing_key_message Demo.w0 0 Demo.template "beta" eq_refl)).
    reflexivity.
  - apply H. reflexivity.
Defined.

Lemma mismatch_nonempty (m : dict) (avail : list string) k :
  In k (keys m) -> existsb (String.eqb k) avail = false ->
  In k (filter (fun key => negb (existsb (String.eqb key) avail)) (keys m)).
Proof.
  intros Hin Hno. apply filter_In. split; auto. now rewrite Hno.
Qed.

(** C9: on a constructed store, [update_pars(m, create=False)] with some
    key of [m] missing from the store raises the UnknownParameter [KeyError]
    listing that key, and the world (the store included) is left exactly as
    it was; [update_pars(m, create=True)] succeeds and afterwards every key
    of [m] holds its value from [m], every other key its old value. *)
Theorem update_pars_validates_first {Rng} (w : World Rng) l s m :
  nth_error (heap w) l = Some s ->
  ((exists k, In k (keys m) /\ dict_mem k (pars s) = false) ->
     exists mism, update_pars l m false w =
                    (Raise (KeyError (MsgMismatches mism (keys (pars s)))), w) /\
                  (exists k, In k mism /\ In k (keys m) /\ dict_mem k (pars s) = false)) /\
  (NoDup (keys m) ->
     exists w' s', update_pars l m true w = (Ok tt, w') /\
                   nth_error (heap w') l = Some s' /\
                   forall k, dict_get (pars s') k =
                             match dict_get m k with
                             | Some v => Some v
                             | None => dict_get (pars s) k
                             end).
Proof.
  intros Hl. split.
  - intros [k [Hin Hk]].
    unfold update_pars. rewrite (bind_ok _ _ w s w) by now apply load_ok.
    set (mism := filter _ (keys m)).
    assert (Hmis : In k mism) by (apply mismatch_nonempty; auto).
    exists mism. split.
    + destruct mism as [|x xs]; [contradiction|]. reflexivity.
    + exists k. auto.
  - intros Hnd.
    unfold update_pars. rewrite (bind_ok _ _ w s w) by now apply load_ok.
    cbn -[dict_update]. unfold store.
    pose proof (nth_error_lt _ _ _ Hl) as Hlt.
    apply Nat.ltb_lt in Hlt as Hltb. rewrite Hltb.
    eexists. exists (set_pars s (dict_update (pars s) m)). split; [reflexivity|]. split.
    + cbn. now apply nth_error_list_set_same.
    + intros k. cbn. now apply dict_update_get.
Qed.

Lemma update_pars_validates_first_witness :
  (exists mism, update_pars 0%nat [("beta", PFloat 2); ("bta", PFloat 3)] false Demo.w0 =
                  (Raise (KeyError (MsgMismatches mism (keys Demo.template_pars))), Demo.w0) /\
                (exists k, In k mism /\ In k ["beta"; "bta"] /\
                           dict_mem k Demo.template_pars = false)) /\
  (exists w' s', update_pars 0%nat [("beta", PFloat 2); ("bta", PFloat 3)] true Demo.w0 = (Ok tt, w') /\
                 nth_error (heap w') 0 = Some s' /\
                 forall k, dict_get (pars s') k =
                           match dict_get [("beta", PFloat 2); ("bta", PFloat 3)] k with
                           | Some v => Some v
                           | None => dict_get Demo.template_pars k
                           end).
Proof.
  destruct (update_pars_validates_first Demo.w0 0 Demo.template
              [("beta", PFloat 2); ("bta", PFloat 3)] eq_refl) as [H1 H2].
  split.
  - apply H1. exists "bta". split; [right; left; reflexivity | reflexivity].
  - apply H2. repeat constructor; cbn; intuition discriminate.
Defined.

(** ** Stepping lemmas for the monad *)

Section StepFacts.
Context {Rng : Type} (rng_normal : Rng -> Q * Rng).

Lemma lift_some {A} (w : World Rng) (a : A) e : lift (Some a) e w = (Ok a, w).
Proof. reflexivity. Qed.

Lemma ret_eq {A} (w : World Rng) (a : A) : ret a w = (Ok a, w).
Proof. reflexivity. Qed.

Lemma draw_normal_eq (w : World Rng) :
  draw_normal rng_normal w =
    (Ok (fst (rng_normal (rng w))), mkWorld (heap w) (snd (rng_normal (rng w))) (jobs w)).
Proof. unfold draw_normal. now destruct (rng_normal (rng w)). Qed.
End StepFacts.

(** Run one step of a [bind] chain whose head is given by [lem]. *)
Ltac step lem :=
  erewrite bind_ok; [cbv beta | solve [eapply lem; eauto]].

Lemma Qlt_le_dec_bool (v : Q) : (0 < v)%Q -> Qle_bool v 0 = false.
Proof.
  intros H. destruct (Qle_bool v 0) eqn:E; auto.
  apply Qle_bool_imp_le in E. exfalso. apply (Qlt_not_le 0 v); auto.
Qed.

Lemma Qle_bool_of_le (v : Q) : (v <= 0)%Q -> Qle_bool v 0 = true.
Proof. intros H. now apply Qle_bool_iff. Qed.

(** ** single_run: the noise factor *)

(** C5: the factor is [1+v] when [v > 0] and [1/(1-v)] otherwise, and it is
    strictly positive for every [v]; [single_run]'s noise step draws [v]
    (times [noise]) from the stream and multiplies the noise parameter's
    value by exactly this factor. *)
Theorem noise_factor_positive {Rng} (rng_normal : Rng -> Q * Rng) suggest :
  (forall v : Q,
     ((0 < v)%Q -> noise_factor v = (1 + v)%Q) /\
     ((v <= 0)%Q -> noise_factor v = (1 / (1 - v))%Q) /\
     (0 < noise_factor v)%Q) /\
  (forall (w : World Rng) l s noise k x,
     nth_error (heap w) l = Some s -> dict_get (pars s) k = Some (PFloat x) ->
     let f := noise_factor (noise * fst (rng_normal (rng w))) in
     exists w' s', apply_noise rng_normal suggest l noise k w = (Ok f, w') /\
                   nth_error (heap w') l = Some s' /\
                   dict_get (pars s') k = Some (PFloat (x * f))).
Proof.
  split.
  - intros v. unfold noise_factor. split; [|split].
    + intros H. now rewrite Qlt_le_dec_bool.
    + intros H. now rewrite Qle_bool_of_le.
    + destruct (Qle_bool v 0) eqn:E; cbn.
      * apply Qle_bool_imp_le in E.
        apply Qlt_shift_div_l; [lra | rewrite Qmult_0_l; reflexivity].
      * destruct (Qlt_le_dec 0 v) as [Hlt|Hle]; [lra|].
        rewrite (Qle_bool_of_le v Hle) in E. discriminate.
  - intros w l s noise k x Hl Hk f.
    unfold apply_noise.
    rewrite (bind_ok _ _ w _ _ (draw_normal_eq rng_normal w)). cbv beta.
    set (w1 := mkWorld (heap w) (snd (rng_normal (rng w))) (jobs w)).
    assert (Hl1 : nth_error (heap w1) l = Some s) by exact Hl.
    rewrite (bind_ok _ _ w1 _ _ (getitem_ok w1 l s k _ Hl1 Hk)). cbv beta.
    cbn [py_mul_float]. rewrite (bind_ok _ _ w1 _ _ (lift_some w1 _ TypeError)). cbv beta.
    rewrite (bind_ok _ _ w1 _ _
               (setitem_ok suggest w1 l s k _ Hl1 (dict_get_mem _ _ _ Hk))).
    eexists. exists (set_pars s (dict_set (pars s) k (PFloat (x * f)))).
    split; [reflexivity|]. split.
    + cbn. apply nth_error_list_set_same. now apply nth_error_lt in Hl.
    + apply dict_get_set_same.
Qed.

Lemma noise_factor_positive_witness :
  (noise_factor (-1) = (1 / (1 - -1))%Q /\ (0 < noise_factor (-1))%Q) /\
  (exists w' s',
     apply_noise Demo.rng_normal Demo.suggest 0%nat 1%Q "beta" Demo.w0 =
       (Ok (noise_factor (1 * (1 # 2))), w') /\
     nth_error (heap w') 0 = Some s' /\
     dict_get (pars s') "beta" = Some (PFloat ((1 # 2) * noise_factor (1 * (1 # 2))))).
Proof.
  destruct (noise_factor_positive Demo.rng_normal Demo.suggest) as [H1 H2].
  split.
  - destruct (H1 (-1)%Q) as [_ [Hle Hpos]]. split; [apply Hle; discriminate | exact Hpos].
  - exact (H2 Demo.w0 0%nat Demo.template 1%Q "beta" (1 # 2)%Q eq_refl eq_refl).
Defined.

(** ** Frame lemmas *)

Section FrameFacts.
Context {Rng : Type}.

Lemma frame_bind {A B} N (m : M Rng A) (f : A -> M Rng B) :
  frame N m -> (forall a, frame N (f a)) -> frame N (bind m f).
Proof.
  intros Hm Hf w Hw. specialize (Hm w Hw). unfold bind.
  destruct (m w) as [[a|e] w'] eqn:E; cbn in Hm |- *; [|exact Hm].
  destruct Hm as [Hn Hj]. destruct (Hf a w' Hn) as [Hn' Hj'].
  split; [exact Hn'|]. intros j Hlt. rewrite Hj', Hj; auto.
Qed.

Lemma frame_bind_dep {A B} N (Q : A -> Prop) (m : M Rng A) (f : A -> M Rng B) :
  frame N m -> returns N Q m -> (forall a, Q a -> frame N (f a)) -> frame N (bind m f).
Proof.
  intros Hm Hr Hf w Hw. pose proof (Hm w Hw) as Hm'. unfold bind.
  destruct (m w) as [[a|e] w'] eqn:E; cbn in Hm' |- *; [|exact Hm'].
  destruct Hm' as [Hn Hj]. destruct (Hf a (Hr w a w' Hw E) w' Hn) as [Hn' Hj'].
  split; [exact Hn'|]. intros j Hlt. rewrite Hj', Hj; auto.
Qed.

Lemma returns_bind {A B} N (Q : A -> Prop) (P : B -> Prop) (m : M Rng A) (f : A -> M Rng B) :
  frame N m -> returns N Q m -> (forall a, Q a -> returns N P (f a)) ->
  returns N P (bind m f).
Proof.
  intros Hm Hr Hf w b w'' Hw E. pose proof (Hm w Hw) as Hm'. unfold bind in E.
  destruct (m w) as [[a|e] w'] eqn:Em; cbn in Hm'; [|discriminate].
  exact (Hf a (Hr w a w' Hw Em) w' b w'' (proj1 Hm') E).
Qed.

Lemma returns_ret {A} N (P : A -> Prop) a : P a -> returns (Rng := Rng) N P (ret a).
Proof. intros H w b w' _ E. inversion E. now subst. Qed.

Lemma frame_ret {A} N (a : A) : frame (Rng := Rng) N (ret a).
Proof. intros w Hw. cbn. auto. Qed.

Lemma frame_raise {A} N e : frame (Rng := Rng) (A := A) N (raise e).
Proof. intros w Hw. cbn. auto. Qed.

Lemma frame_lift {A} N (o : option A) e : frame (Rng := Rng) N (lift o e).
Proof. destruct o; [apply frame_ret | apply frame_raise]. Qed.

Lemma frame_lift_sum {A} N (x : exn + A) : frame (Rng := Rng) N (lift_sum x).
Proof. destruct x; [apply frame_raise | apply frame_ret]. Qed.

Lemma frame_load N l : frame (Rng := Rng) N (load l).
Proof. intros w Hw. unfold load. destruct (nth_error (heap w) l); cbn; auto. Qed.

Lemma frame_get_rng N : frame (Rng := Rng) N get_rng.
Proof. intros w Hw. cbn. auto. Qed.

Lemma frame_set_rng N r : frame (Rng := Rng) N (set_rng r).
Proof. intros w Hw. cbn. auto. Qed.

Lemma frame_draw_normal N rn : frame (Rng := Rng) N (draw_normal rn).
Proof. intros w Hw. unfold draw_normal. destruct (rn (rng w)). cbn. auto. Qed.

Lemma frame_store N l s : (N <= l)%nat -> frame (Rng := Rng) N (store l s).
Proof.
  intros Hl w Hw. unfold store. destruct (Nat.ltb l (length (heap w))); cbn; [|auto].
  rewrite length_list_set. split; auto.
  intros j Hj. apply nth_error_list_set_other. lia.
Qed.

Lemma frame_alloc N s : frame (Rng := Rng) N (alloc s).
Proof.
  intros w Hw. unfold alloc. cbn. rewrite length_app. split; [lia|].
  intros j Hj. apply nth_error_app1. lia.
Qed.

Lemma returns_alloc N s : returns (Rng := Rng) N (fun a => (N <= a)%nat) (alloc s).
Proof. intros w a w' Hw E. unfold alloc in E. inversion E. now subst. Qed.
End FrameFacts.

Create HintDb frame.
#[export] Hint Resolve frame_ret frame_raise frame_lift frame_lift_sum frame_load
  frame_get_rng frame_set_rng frame_draw_normal frame_alloc : frame.
#[export] Hint Extern 2 (frame _ (store _ _)) => apply frame_store; lia : frame.
#[export] Hint Extern 1 (frame _ (bind _ _)) => apply frame_bind; intros : frame.

Section FrameOps.
Context {Rng : Type} (rng_seed : pval -> Rng) (rng_normal : Rng -> Q * Rng)
        (run_sim : pval -> Sim -> Rng -> Sim * Rng)
        (suggest : string -> list string -> option string).

Lemma returns_true {A} N (m : M Rng A) : returns N (fun _ => True) m.
Proof. intros w a w' _ _. exact I. Qed.

Lemma returns_bind_simple {A B} N (P : B -> Prop) (m : M Rng A) (f : A -> M Rng B) :
  frame N m -> (forall a, returns N P (f a)) -> returns N P (bind m f).
Proof.
  intros Hm Hf. apply (returns_bind N (fun _ => True)); auto using returns_true.
Qed.

Lemma frame_getitem N l k : frame (Rng := Rng) N (getitem l k).
Proof. unfold getitem. auto with frame. Qed.

Lemma frame_setitem N l k v : (N <= l)%nat -> frame (Rng := Rng) N (setitem suggest l k v).
Proof.
  intros Hl. unfold setitem. apply frame_bind; [auto with frame|]. intros s.
  destruct (dict_mem k (pars s)); [now apply frame_store|].
  destruct (suggest k (keys (pars s))); [destruct (String.eqb _ _)|]; auto with frame.
Qed.

Lemma frame_set_seed N l seed randomize :
  (N <= l)%nat -> frame (Rng := Rng) N (set_seed rng_seed suggest l seed randomize).
Proof.
  intros Hl. unfold set_seed.
  destruct randomize, seed; auto with frame;
    apply frame_bind; auto using frame_getitem, frame_setitem with frame.
Qed.

Lemma frame_run N l verbose : (N <= l)%nat -> frame (Rng := Rng) N (run run_sim l verbose).
Proof.
  intros Hl. unfold run. apply frame_bind; [auto with frame|]. intros s.
  apply frame_bind; [auto with frame|]. intros r.
  destruct (run_sim verbose s r). apply frame_bind; [now apply frame_store|].
  auto with frame.
Qed.

Lemma frame_resolve_verbose N l verbose : frame (Rng := Rng) N (resolve_verbose l verbose).
Proof. unfold resolve_verbose. destruct verbose; auto using frame_getitem with frame. Qed.

Lemma frame_reseed N l ind : (N <= l)%nat -> frame (Rng := Rng) N (reseed rng_seed suggest l ind).
Proof.
  intros Hl. unfold reseed.
  apply frame_bind; [apply frame_getitem|]. intros seed.
  apply frame_bind; [auto with frame|]. intros seed'.
  apply frame_bind; [now apply frame_setitem|]. intros _.
  now apply frame_set_seed.
Qed.

Lemma frame_resolve_noisepar N sim noisepar : frame (Rng := Rng) N (resolve_noisepar sim noisepar).
Proof.
  unfold resolve_noisepar. destruct noisepar; [auto with frame|].
  apply frame_bind; [auto with frame|]. intros s.
  destruct (noise_found (pars s)) as [|k [|k' ks]]; auto with frame.
Qed.

Lemma frame_apply_noise N l noise k :
  (N <= l)%nat -> frame (Rng := Rng) N (apply_noise rng_normal suggest l noise k).
Proof.
  intros Hl. unfold apply_noise.
  apply frame_bind; [auto with frame|]. intros v.
  apply frame_bind; [apply frame_getitem|]. intros x.
  apply frame_bind; [auto with frame|]. intros x'.
  apply frame_bind; [now apply frame_setitem|]. intros _.
  auto with frame.
Qed.

Lemma frame_apply_overrides N l verbose kwargs :
  (N <= l)%nat -> frame (Rng := Rng) N (apply_overrides suggest l verbose kwargs).
Proof.
  intros Hl. induction kwargs as [|[key val] rest IH]; cbn; [auto with frame|].
  apply frame_bind; [auto with frame|]. intros s.
  destruct (dict_mem key (pars s)); [|auto with frame].
  apply frame_bind; [auto with frame|]. intros loud.
  apply frame_bind; [|intros; exact IH].
  destruct loud; [|auto with frame].
  apply frame_bind; auto using frame_getitem, frame_setitem.
Qed.

Lemma frame_dcp N sim : frame (Rng := Rng) N (dcp sim).
Proof. unfold dcp. auto with frame. Qed.

Lemma returns_dcp N sim : returns (Rng := Rng) N (fun a => (N <= a)%nat) (dcp sim).
Proof.
  unfold dcp. apply returns_bind_simple; [auto with frame|]. intros s. apply returns_alloc.
Qed.

(** After the clone, [single_run_prep] writes only to the clone. *)
Lemma frame_single_run_prep N sim ind noise noisepar verbose kwargs :
  frame (Rng := Rng) N
    (single_run_prep rng_seed rng_normal suggest sim ind noise noisepar verbose kwargs).
Proof.
  unfold single_run_prep.
  apply (frame_bind_dep N (fun a => (N <= a)%nat)); [apply frame_dcp | apply returns_dcp|].
  intros a Ha.
  apply frame_bind; [apply frame_resolve_verbose|]. intros v.
  apply frame_bind; [now apply frame_reseed|]. intros _.
  apply frame_bind; [apply frame_resolve_noisepar|]. intros k.
  apply frame_bind; [now apply frame_apply_noise|]. intros _.
  apply frame_bind; [auto with frame|]. intros _.
  apply frame_bind; [now apply frame_apply_overrides|]. intros _.
  auto with frame.
Qed.

Lemma returns_single_run_prep N sim ind noise noisepar verbose kwargs :
  returns (Rng := Rng) N (fun p => (N <= fst p)%nat)
    (single_run_prep rng_seed rng_normal suggest sim ind noise noisepar verbose kwargs).
Proof.
  unfold single_run_prep.
  apply (returns_bind N (fun a => (N <= a)%nat)); [apply frame_dcp | apply returns_dcp|].
  intros a Ha.
  apply returns_bind_simple; [apply frame_resolve_verbose|]. intros v.
  apply returns_bind_simple; [now apply frame_reseed|]. intros _.
  apply returns_bind_simple; [apply frame_resolve_noisepar|]. intros k.
  apply returns_bind_simple; [now apply frame_apply_noise|]. intros _.
  apply returns_bind_simple; [auto with frame|]. intros _.
  apply returns_bind_simple; [now apply frame_apply_overrides|]. intros _.
  now apply returns_ret.
Qed.

Lemma frame_single_run N sim ind noise noisepar verbose kwargs :
  frame (Rng := Rng) N
    (single_run rng_seed rng_normal run_sim suggest sim ind noise noisepar verbose kwargs).
Proof.
  unfold single_run.
  apply (frame_bind_dep N (fun p => (N <= fst p)%nat));
    [apply frame_single_run_prep | apply returns_single_run_prep|].
  intros p Hp. apply frame_bind; [now apply frame_run|]. auto with frame.
Qed.

Lemma returns_single_run N sim ind noise noisepar verbose kwargs :
  returns (Rng := Rng) N (fun l => (N <= l)%nat)
    (single_run rng_seed rng_normal run_sim suggest sim ind noise noisepar verbose kwargs).
Proof.
  unfold single_run.
  apply (returns_bind N (fun p => (N <= fst p)%nat));
    [apply frame_single_run_prep | apply returns_single_run_prep|].
  intros p Hp. apply returns_bind_simple; [now apply frame_run|].
  intros _. now apply returns_ret.
Qed.
End FrameOps.

(** ** single_run: the template is only read *)

(** C10: whatever [single_run] does (it may also raise), every object that
    existed before the call, the template [sim] included, with its
    parameter store and population, is exactly as before; the engine it
    returns is a fresh object created by the call (the deep copy), distinct
    from every pre-existing one. *)
Theorem single_run_leaves_template {Rng} rng_seed rng_normal run_sim suggest
    (w : World Rng) sim ind noise noisepar verbose kwargs :
  let '(r, w') :=
    single_run rng_seed rng_normal run_sim suggest sim ind noise noisepar verbose kwargs w in
  (forall j, (j < length (heap w))%nat -> nth_error (heap w') j = nth_error (heap w) j) /\
  (forall l', r = Ok l' -> (length (heap w) <= l')%nat).
Proof.
  destruct (single_run rng_seed rng_normal run_sim suggest sim ind noise noisepar verbose kwargs w)
    as [r w'] eqn:E.
  pose proof (frame_single_run rng_seed rng_normal run_sim suggest (length (heap w))
                sim ind noise noisepar verbose kwargs w (le_n _)) as [_ Hf].
  rewrite E in Hf. cbn in Hf. split; [exact Hf|].
  intros l' ->.
  exact (returns_single_run rng_seed rng_normal run_sim suggest (length (heap w))
           sim ind noise noisepar verbose kwargs w l' w' (le_n _) E).
Qed.

Lemma single_run_leaves_template_witness :
  nth_error (heap (snd (single_run Demo.rng_seed Demo.rng_normal Demo.run_sim Demo.suggest
                          0%nat (PInt 3) (1 # 5)%Q None (PInt 1) [("beta", PFloat 9)] Demo.w0)))
            0 = Some Demo.template /\
  (forall l', fst (single_run Demo.rng_seed Demo.rng_normal Demo.run_sim Demo.suggest
                     0%nat (PInt 3) (1 # 5)%Q None (PInt 1) [("beta", PFloat 9)] Demo.w0) = Ok l' ->
              (1 <= l')%nat).
Proof.
  pose proof (single_run_leaves_template Demo.rng_seed Demo.rng_normal Demo.run_sim Demo.suggest
                Demo.w0 0%nat (PInt 3) (1 # 5)%Q None (PInt 1) [("beta", PFloat 9)]) as H.
  destruct (single_run Demo.rng_seed Demo.rng_normal Demo.run_sim Demo.suggest
              0%nat (PInt 3) (1 # 5)%Q None (PInt 1) [("beta", PFloat 9)] Demo.w0)
    as [r w'] eqn:E.
  destruct H as [H1 H2]. cbn [fst snd]. split.
  - apply (H1 0%nat). vm_compute. constructor.
  - exact H2.
Defined.

(** ** Running the first steps of [single_run] *)

Section PrefixFacts.
Context {Rng : Type} (rng_seed : pval -> Rng) (rng_normal : Rng -> Q * Rng)
        (run_sim : pval -> Sim -> Rng -> Sim * Rng)
        (suggest : string -> list string -> option string).

Lemma bind_inv {A B} (m : M Rng A) (f : A -> M Rng B) w b w'' :
  bind m f w = (Ok b, w'') -> exists a w', m w = (Ok a, w') /\ f a w' = (Ok b, w'').
Proof.
  unfold bind. destruct (m w) as [[a|e] w']; [|discriminate]. eauto.
Qed.

Lemma keeps_rng_bind {A B} (m : M Rng A) (f : A -> M Rng B) :
  keeps_rng m -> (forall a, keeps_rng (f a)) -> keeps_rng (bind m f).
Proof.
  intros Hm Hf w. specialize (Hm w). unfold bind.
  destruct (m w) as [[a|e] w'] eqn:E; cbn in *; [rewrite Hf|]; auto.
Qed.

Lemma keeps_rng_ret {A} (a : A) : keeps_rng (Rng := Rng) (ret a).
Proof. intros w. reflexivity. Qed.

Lemma keeps_rng_raise {A} e : keeps_rng (Rng := Rng) (A := A) (raise e).
Proof. intros w. reflexivity. Qed.

Lemma keeps_rng_lift {A} (o : option A) e : keeps_rng (Rng := Rng) (lift o e).
Proof. destruct o; intros w; reflexivity. Qed.

Lemma keeps_rng_load l : keeps_rng (Rng := Rng) (load l).
Proof. intros w. unfold load. now destruct (nth_error (heap w) l). Qed.

Lemma keeps_rng_store l s : keeps_rng (Rng := Rng) (store l s).
Proof. intros w. unfold store. now destruct (Nat.ltb l (length (heap w))). Qed.

Lemma keeps_rng_getitem l k : keeps_rng (Rng := Rng) (getitem l k).
Proof.
  unfold getitem. apply keeps_rng_bind; [apply keeps_rng_load|]. intros. apply keeps_rng_lift.
Qed.

Lemma keeps_rng_setitem l k v : keeps_rng (Rng := Rng) (setitem suggest l k v).
Proof.
  unfold setitem. apply keeps_rng_bind; [apply keeps_rng_load|]. intros s.
  destruct (dict_mem k (pars s)); [apply keeps_rng_store|].
  destruct (suggest k (keys (pars s))); [destruct (String.eqb _ _)|];
    apply keeps_rng_raise.
Qed.

Lemma keeps_rng_resolve_noisepar sim np : keeps_rng (Rng := Rng) (resolve_noisepar sim np).
Proof.
  unfold resolve_noisepar. destruct np; [apply keeps_rng_ret|].
  apply keeps_rng_bind; [apply keeps_rng_load|]. intros s.
  destruct (noise_found (pars s)) as [|k [|k' ks]];
    auto using keeps_rng_ret, keeps_rng_raise.
Qed.

Lemma keeps_rng_apply_overrides l verbose kwargs :
  keeps_rng (Rng := Rng) (apply_overrides suggest l verbose kwargs).
Proof.
  induction kwargs as [|[key val] rest IH]; cbn; [apply keeps_rng_ret|].
  apply keeps_rng_bind; [apply keeps_rng_load|]. intros s.
  destruct (dict_mem key (pars s)); [|apply keeps_rng_raise].
  apply keeps_rng_bind; [apply keeps_rng_lift|]. intros loud.
  apply keeps_rng_bind; [|intros; exact IH].
  destruct loud; [|apply keeps_rng_ret].
  apply keeps_rng_bind; [apply keeps_rng_getitem|]. intros. apply keeps_rng_setitem.
Qed.

(** The noise step advances the stream by exactly one normal draw. *)
Lemma apply_noise_rng l noise k w :
  rng (snd (apply_noise rng_normal suggest l noise k w)) = snd (rng_normal (rng w)).
Proof.
  unfold apply_noise.
  rewrite (bind_ok _ _ w _ _ (draw_normal_eq rng_normal w)). cbv beta.
  set (w1 := mkWorld (heap w) (snd (rng_normal (rng w))) (jobs w)).
  change (snd (rng_normal (rng w))) with (rng w1).
  apply keeps_rng_bind; [apply keeps_rng_getitem|]. intros x.
  apply keeps_rng_bind; [apply keeps_rng_lift|]. intros x'.
  apply keeps_rng_bind; [apply keeps_rng_setitem|]. intros. apply keeps_rng_ret.
Qed.

Lemma dcp_ok (w : World Rng) l s :
  nth_error (heap w) l = Some s ->
  dcp l w = (Ok (length (heap w)), mkWorld (heap w ++ [s]) (rng w) (jobs w)).
Proof. intros Hl. unfold dcp. now rewrite (bind_ok _ _ w s w (load_ok w l s Hl)). Qed.

Lemma resolve_verbose_world (w : World Rng) l verbose :
  snd (resolve_verbose l verbose w) = w.
Proof.
  unfold resolve_verbose, getitem, bind, load.
  destruct verbose; try reflexivity.
  destruct (nth_error (heap w) l) as [s|]; cbn; [|reflexivity].
  now destruct (dict_get (pars s) "verbose").
Qed.

Lemma resolve_verbose_ok (w : World Rng) l s verbose :
  nth_error (heap w) l = Some s ->
  (verbose <> PNone \/ dict_mem "verbose" (pars s) = true) ->
  exists vb, resolve_verbose l verbose w = (Ok vb, w).
Proof.
  intros Hl Hv. unfold resolve_verbose.
  destruct verbose; try (exists (match verbose with PNone => PNone | _ => verbose end); 
                         now eexists).
  all: try (eexists; reflexivity).
  destruct Hv as [Hv|Hv]; [congruence|].
  apply dict_mem_get in Hv as [v Hv]. exists v. now apply (getitem_ok w l s).
Qed.

Lemma reseed_ok (w : World Rng) l s z i :
  nth_error (heap w) l = Some s -> dict_get (pars s) "seed" = Some (PInt z) ->
  reseed rng_seed suggest l (PInt i) w =
    (Ok tt, mkWorld (list_set (heap w) l (set_pars s (dict_set (pars s) "seed" (PInt (z + i)))))
                    (rng_seed (PInt (z + i))) (jobs w)).
Proof.
  intros Hl Hz. unfold reseed.
  rewrite (bind_ok _ _ w _ _ (getitem_ok w l s _ _ Hl Hz)). cbv beta.
  cbn [py_add]. rewrite (bind_ok _ _ w _ _ (lift_some w _ TypeError)). cbv beta.
  rewrite (bind_ok _ _ w _ _ (setitem_ok suggest w l s _ _ Hl (dict_get_mem _ _ _ Hz))).
  cbv beta. unfold set_seed.
  set (s' := set_pars s (dict_set (pars s) "seed" (PInt (z + i)))).
  set (w1 := mkWorld (list_set (heap w) l s') (rng w) (jobs w)).
  assert (Hl1 : nth_error (heap w1) l = Some s').
  { cbn. apply nth_error_list_set_same. now apply nth_error_lt in Hl. }
  assert (Hz1 : dict_get (pars s') "seed" = Some (PInt (z + i))) by apply dict_get_set_same.
  rewrite (bind_ok _ _ w1 _ _ (getitem_ok w1 l s' _ _ Hl1 Hz1)). reflexivity.
Qed.
End PrefixFacts.

(** ** Where the noise-parameter guess can fail *)

Section NoGuess.
Context {Rng : Type} (rng_seed : pval -> Rng) (rng_normal : Rng -> Q * Rng)
        (run_sim : pval -> Sim -> Rng -> Sim * Rng)
        (suggest : string -> list string -> option string).

Lemma ng_bind {A B} (m : M Rng A) (f : A -> M Rng B) :
  no_guess m -> (forall a, no_guess (f a)) -> no_guess (bind m f).
Proof.
  intros Hm Hf w e w'' E. unfold bind in E.
  destruct (m w) as [[a|e'] w'] eqn:Em.
  - exact (Hf a w' e w'' E).
  - inversion E; subst. eapply Hm. exact Em.
Qed.

Lemma ng_ret {A} (a : A) : no_guess (Rng := Rng) (ret a).
Proof. intros w e w' E. discriminate. Qed.

Lemma ng_raise {A} e :
  (forall gs fs, e <> KeyError (MsgNoiseGuess gs fs)) -> no_guess (Rng := Rng) (A := A) (raise e).
Proof. intros H w e' w' E. inversion E. now subst. Qed.

Lemma ng_lift {A} (o : option A) e :
  (forall gs fs, e <> KeyError (MsgNoiseGuess gs fs)) -> no_guess (Rng := Rng) (lift o e).
Proof. destruct o; [intros; apply ng_ret | apply ng_raise]. Qed.

Lemma ng_load l : no_guess (Rng := Rng) (load l).
Proof.
  intros w e w' E. unfold load in E.
  destruct (nth_error (heap w) l); inversion E; discriminate.
Qed.

Lemma ng_store l s : no_guess (Rng := Rng) (store l s).
Proof.
  intros w e w' E. unfold store in E.
  destruct (Nat.ltb l (length (heap w))); inversion E; discriminate.
Qed.

Lemma ng_alloc s : no_guess (Rng := Rng) (alloc s).
Proof. intros w e w' E. discriminate. Qed.

Lemma ng_get_rng : no_guess (Rng := Rng) get_rng.
Proof. intros w e w' E. discriminate. Qed.

Lemma ng_set_rng r : no_guess (Rng := Rng) (set_rng r).
Proof. intros w e w' E. discriminate. Qed.

Lemma ng_draw_normal : no_guess (Rng := Rng) (draw_normal rng_normal).
Proof. intros w e w' E. unfold draw_normal in E. destruct (rng_normal (rng w)). discriminate. Qed.
End NoGuess.

Create HintDb noguess.
#[export] Hint Resolve ng_ret ng_load ng_store ng_alloc ng_get_rng ng_set_rng
  ng_draw_normal : noguess.
#[export] Hint Extern 1 (no_guess (raise _)) => (apply ng_raise; intros; discriminate) : noguess.
#[export] Hint Extern 1 (no_guess (lift _ _)) => (apply ng_lift; intros; discriminate) : noguess.

Ltac ng_step :=
  match goal with
  | |- no_guess (bind _ _) => apply ng_bind; [|intros]
  | |- no_guess (if ?b then _ else _) => destruct b
  | |- no_guess (match ?x with _ => _ end) => destruct x
  | |- no_guess (let '(_, _) := ?p in _) => destruct p
  | _ => solve [eauto with noguess]
  end.

Section NoGuessOps.
Context {Rng : Type} (rng_seed : pval -> Rng) (rng_normal : Rng -> Q * Rng)
        (run_sim : pval -> Sim -> Rng -> Sim * Rng)
        (suggest : string -> list string -> option string).

Lemma ng_getitem l k : no_guess (Rng := Rng) (getitem l k).
Proof. unfold getitem. repeat ng_step. Qed.

Lemma ng_setitem l k v : no_guess (Rng := Rng) (setitem suggest l k v).
Proof. unfold setitem. repeat ng_step. Qed.

Local Hint Resolve ng_getitem ng_setitem : noguess.

Lemma ng_set_seed l seed randomize : no_guess (Rng := Rng) (set_seed rng_seed suggest l seed randomize).
Proof. unfold set_seed. repeat ng_step. Qed.

Local Hint Resolve ng_set_seed : noguess.

Lemma ng_dcp l : no_guess (Rng := Rng) (dcp l).
Proof. unfold dcp. repeat ng_step. Qed.

Lemma ng_resolve_verbose l v : no_guess (Rng := Rng) (resolve_verbose l v).
Proof. unfold resolve_verbose. repeat ng_step. Qed.

Lemma ng_reseed l ind : no_guess (Rng := Rng) (reseed rng_seed suggest l ind).
Proof. unfold reseed. repeat ng_step. Qed.

Lemma ng_resolve_explicit sim k : no_guess (Rng := Rng) (resolve_noisepar sim (Some k)).
Proof. apply ng_ret. Qed.

Lemma ng_apply_noise l noise k : no_guess (Rng := Rng) (apply_noise rng_normal suggest l noise k).
Proof. unfold apply_noise. repeat ng_step. Qed.

Lemma ng_apply_overrides l v kwargs : no_guess (Rng := Rng) (apply_overrides suggest l v kwargs).
Proof.
  induction kwargs as [|[key val] rest IH]; cbn; [apply ng_ret|].
  repeat ng_step.
Qed.

Lemma ng_run l v : no_guess (Rng := Rng) (run run_sim l v).
Proof. unfold run. repeat ng_step. Qed.

Local Hint Resolve ng_dcp ng_resolve_verbose ng_reseed ng_resolve_explicit ng_apply_noise
  ng_apply_overrides ng_run : noguess.

(** With the noise parameter given, [single_run] never raises the guess error. *)
Lemma ng_single_run_explicit sim ind noise k verbose kwargs :
  no_guess (Rng := Rng)
    (single_run rng_seed rng_normal run_sim suggest sim ind noise (Some k) verbose kwargs).
Proof. unfold single_run, single_run_prep. repeat ng_step. Qed.
End NoGuessOps.

Section PrepPrefix.
Context {Rng : Type} (rng_seed : pval -> Rng) (rng_normal : Rng -> Q * Rng)
        (run_sim : pval -> Sim -> Rng -> Sim * Rng)
        (suggest : string -> list string -> option string).

Lemma bind_congr {A B} (m1 m2 : M Rng A) (f : A -> M Rng B) w :
  m1 w = m2 w -> bind m1 f w = bind m2 f w.
Proof. intros H. unfold bind. now rewrite H. Qed.

Lemma template_after_reseed (w : World Rng) l s s' :
  nth_error (heap w) l = Some s ->
  nth_error (list_set (heap w ++ [s]) (length (heap w)) s') l = Some s.
Proof.
  intros Hl. pose proof (nth_error_lt _ _ _ Hl) as Hlt.
  rewrite nth_error_list_set_other by lia. rewrite nth_error_app1 by lia. exact Hl.
Qed.

(** [single_run_prep] from a template with an int seed: after the clone,
    the verbosity and the reseed, the rest runs on the clone at the first
    free location, with the stream seeded by [seed + ind]. *)
Lemma prep_prefix (w : World Rng) l s z i noise verbose kwargs :
  nth_error (heap w) l = Some s ->
  dict_get (pars s) "seed" = Some (PInt z) ->
  (verbose <> PNone \/ dict_mem "verbose" (pars s) = true) ->
  exists vb, forall np,
    single_run_prep rng_seed rng_normal suggest l (PInt i) noise np verbose kwargs w =
    bind (resolve_noisepar l np) (fun np' =>
      bind (apply_noise rng_normal suggest (length (heap w)) noise np') (fun _ =>
        bind (lift (py_ge1 vb) TypeError) (fun _ =>
          bind (apply_overrides suggest (length (heap w)) vb kwargs) (fun _ =>
            ret (length (heap w), vb)))))
      (mkWorld (list_set (heap w ++ [s]) (length (heap w))
                  (set_pars s (dict_set (pars s) "seed" (PInt (z + i)))))
               (rng_seed (PInt (z + i))) (jobs w)).
Proof.
  intros Hl Hz Hv.
  set (w1 := mkWorld (heap w ++ [s]) (rng w) (jobs w)).
  assert (Hs1 : nth_error (heap w1) (length (heap w)) = Some s).
  { cbn. rewrite nth_error_app2 by lia. now rewrite Nat.sub_diag. }
  destruct (resolve_verbose_ok w1 (length (heap w)) s verbose Hs1 Hv) as [vb Hvb].
  exists vb. intros np. unfold single_run_prep.
  rewrite (bind_ok _ _ w _ _ (dcp_ok w l s Hl)). cbv beta. fold w1.
  rewrite (bind_ok _ _ w1 _ _ Hvb). cbv beta.
  rewrite (bind_ok _ _ w1 _ _ (reseed_ok rng_seed suggest w1 _ s z i Hs1 Hz)).
  reflexivity.
Qed.
End PrepPrefix.

(** ** single_run: automatic choice of the noise parameter *)

(** C4: for a template with an int seed (and a verbosity, given or stored),
    [single_run] with no noise parameter given: when exactly one of
    ['r_contact'], ['r0'], ['beta'] is a parameter, it behaves exactly as if
    that parameter had been given, and never raises the
    AmbiguousNoiseParameter [KeyError]; when none or several are, it raises
    that [KeyError]. *)
Theorem noise_param_auto_detection {Rng} rng_seed rng_normal run_sim suggest
    (w : World Rng) l s z i noise verbose kwargs :
  nth_error (heap w) l = Some s ->
  dict_get (pars s) "seed" = Some (PInt z) ->
  (verbose <> PNone \/ dict_mem "verbose" (pars s) = true) ->
  (forall k, noise_found (pars s) = [k] ->
     single_run rng_seed rng_normal run_sim suggest l (PInt i) noise None verbose kwargs w =
     single_run rng_seed rng_normal run_sim suggest l (PInt i) noise (Some k) verbose kwargs w /\
     forall gs fs,
       fst (single_run rng_seed rng_normal run_sim suggest l (PInt i) noise None verbose kwargs w)
       <> Raise (KeyError (MsgNoiseGuess gs fs))) /\
  (length (noise_found (pars s)) <> 1%nat ->
     fst (single_run rng_seed rng_normal run_sim suggest l (PInt i) noise None verbose kwargs w) =
     Raise (KeyError (MsgNoiseGuess guesses (noise_found (pars s))))).
Proof.
  intros Hl Hz Hv.
  destruct (prep_prefix rng_seed rng_normal suggest w l s z i noise verbose kwargs Hl Hz Hv)
    as [vb Hprep].
  set (s' := set_pars s (dict_set (pars s) "seed" (PInt (z + i)))) in Hprep.
  set (w2 := mkWorld (list_set (heap w ++ [s]) (length (heap w)) s')
                     (rng_seed (PInt (z + i))) (jobs w)) in Hprep.
  assert (Ht : nth_error (heap w2) l = Some s) by (apply template_after_reseed; exact Hl).
  split.
  - intros k Hk.
    assert (Heq : single_run rng_seed rng_normal run_sim suggest l (PInt i) noise None verbose kwargs w =
                  single_run rng_seed rng_normal run_sim suggest l (PInt i) noise (Some k) verbose kwargs w).
    { assert (Hres : resolve_noisepar l None w2 = (Ok k, w2)).
      { unfold resolve_noisepar. rewrite (bind_ok _ _ w2 _ _ (load_ok w2 l s Ht)). cbv beta.
        now rewrite Hk. }
      unfold single_run. apply bind_congr. rewrite !Hprep.
      rewrite (bind_ok _ _ w2 _ _ Hres).
      rewrite (bind_ok (resolve_noisepar l (Some k)) _ w2 k w2 eq_refl).
      reflexivity. }
    split; [exact Heq|].
    intros gs fs. rewrite Heq.
    destruct (single_run rng_seed rng_normal run_sim suggest l (PInt i) noise (Some k) verbose kwargs w)
      as [r w'] eqn:E.
    destruct r as [a|e]; [discriminate|]. cbn.
    intros He. inversion He; subst.
    exact (ng_single_run_explicit rng_seed rng_normal run_sim suggest l (PInt i) noise k verbose kwargs
             w _ w' E gs fs eq_refl).
  - intros Hlen.
    assert (Hres : resolve_noisepar l None w2 =
                   (Raise (KeyError (MsgNoiseGuess guesses (noise_found (pars s)))), w2)).
    { unfold resolve_noisepar. rewrite (bind_ok _ _ w2 _ _ (load_ok w2 l s Ht)). cbv beta.
      destruct (noise_found (pars s)) as [|k [|k' ks]]; cbn in Hlen |- *;
        [reflexivity | lia | reflexivity]. }
    assert (Hp : single_run_prep rng_seed rng_normal suggest l (PInt i) noise None verbose kwargs w =
                 (Raise (KeyError (MsgNoiseGuess guesses (noise_found (pars s)))), w2)).
    { rewrite Hprep. exact (bind_raise _ _ w2 _ w2 Hres). }
    unfold single_run. now rewrite (bind_raise _ _ w _ _ Hp).
Qed.

Lemma noise_param_auto_detection_witness :
  (single_run Demo.rng_seed Demo.rng_normal Demo.run_sim Demo.suggest 0%nat (PInt 2) (1 # 5)%Q
     None PNone [] Demo.w0 =
   single_run Demo.rng_seed Demo.rng_normal Demo.run_sim Demo.suggest 0%nat (PInt 2) (1 # 5)%Q
     (Some "beta") PNone [] Demo.w0) /\
  fst (single_run Demo.rng_seed Demo.rng_normal Demo.run_sim Demo.suggest 0%nat (PInt 2) (1 # 5)%Q
         None PNone [] Demo.w_two) =
  Raise (KeyError (MsgNoiseGuess guesses ["r0"; "beta"])).
Proof.
  split.
  - apply (proj1 (noise_param_auto_detection Demo.rng_seed Demo.rng_normal Demo.run_sim Demo.suggest
                    Demo.w0 0 Demo.template 1 2 (1 # 5)%Q PNone [] eq_refl eq_refl
                    (or_intror eq_refl)) "beta" eq_refl).
  - apply (proj2 (noise_param_auto_detection Demo.rng_seed Demo.rng_normal Demo.run_sim Demo.suggest
                    Demo.w_two 0 Demo.template_two 7 2 (1 # 5)%Q PNone [] eq_refl eq_refl
                    (or_intror eq_refl))).
    cbn. discriminate.
Defined.

(** ** single_run: the seed of each run *)

Section SeedFacts.
Context {Rng : Type}.

Lemma load_inv (w : World Rng) l s w' :
  load l w = (Ok s, w') -> w' = w /\ nth_error (heap w) l = Some s.
Proof.
  unfold load. destruct (nth_error (heap w) l); intros E; inversion E; subst; auto.
Qed.

Lemma store_inv (w : World Rng) l s w' :
  store l s w = (Ok tt, w') -> nth_error (heap w') l = Some s.
Proof.
  unfold store. destruct (Nat.ltb l (length (heap w))) eqn:E; intros H; inversion H; subst.
  cbn. apply Nat.ltb_lt in E. now apply nth_error_list_set_same.
Qed.

Lemma ok_keeps_rng {A} (m : M Rng A) w a w' :
  keeps_rng m -> m w = (Ok a, w') -> rng w' = rng w.
Proof. intros K E. specialize (K w). now rewrite E in K. Qed.
End SeedFacts.

(** C3: a successful [single_run] with run index [i] on a template whose
    base seed is [z] runs its clone on the random stream seeded with
    exactly [z + i] (after the one normal draw of the noise step): the
    engine it returns is [run] applied to that stream. Distinct indices
    give distinct seeds. *)
Theorem single_run_seed_offset {Rng} rng_seed rng_normal run_sim suggest
    (w : World Rng) l s z i noise noisepar verbose kwargs l' w' :
  nth_error (heap w) l = Some s ->
  dict_get (pars s) "seed" = Some (PInt z) ->
  single_run rng_seed rng_normal run_sim suggest l (PInt i) noise noisepar verbose kwargs w =
    (Ok l', w') ->
  (exists vb sim0,
     nth_error (heap w') l' =
       Some (fst (run_sim vb sim0 (snd (rng_normal (rng_seed (PInt (z + i)))))))) /\
  (forall j, j <> i -> z + j <> z + i).
Proof.
  intros Hl Hz H. split; [|intros j Hj; lia].
  unfold single_run in H.
  apply bind_inv in H as [p [w5 [Hp Hrun]]].
  unfold single_run_prep in Hp.
  apply bind_inv in Hp as [a [w1 [Hd Hp]]].
  rewrite (dcp_ok w l s Hl) in Hd. inversion Hd; subst a w1. clear Hd.
  set (w1 := mkWorld (heap w ++ [s]) (rng w) (jobs w)) in Hp.
  assert (Hs1 : nth_error (heap w1) (length (heap w)) = Some s).
  { cbn. rewrite nth_error_app2 by lia. now rewrite Nat.sub_diag. }
  apply bind_inv in Hp as [vb [w1' [Hv Hp]]].
  pose proof (resolve_verbose_world w1 (length (heap w)) verbose) as Hw1.
  rewrite Hv in Hw1. cbn in Hw1. subst w1'.
  apply bind_inv in Hp as [u [w2 [Hr Hp]]].
  rewrite (reseed_ok rng_seed suggest w1 _ s z i Hs1 Hz) in Hr. inversion Hr; subst u w2. clear Hr.
  apply bind_inv in Hp as [k [w3 [Hk Hp]]].
  pose proof (ok_keeps_rng _ _ _ _ (keeps_rng_resolve_noisepar l noisepar) Hk) as R3.
  apply bind_inv in Hp as [f [w4 [Hn Hp]]].
  pose proof (apply_noise_rng rng_normal suggest (length (heap w)) noise k w3) as R4.
  rewrite Hn in R4. cbn in R4.
  apply bind_inv in Hp as [u [w4' [Hg Hp]]].
  pose proof (ok_keeps_rng _ _ _ _ (keeps_rng_lift _ TypeError) Hg) as R4'.
  apply bind_inv in Hp as [u' [w5' [Ho Hp]]].
  pose proof (ok_keeps_rng _ _ _ _ (keeps_rng_apply_overrides suggest _ vb kwargs) Ho) as R5.
  inversion Hp; subst p w5'. clear Hp. cbn [fst snd] in Hrun.
  apply bind_inv in Hrun as [u'' [w6 [Hrn Hret]]].
  inversion Hret; subst l' w6. clear Hret.
  unfold run in Hrn.
  apply bind_inv in Hrn as [s0 [w5a [Hld Hrn]]].
  apply load_inv in Hld as [-> _].
  apply bind_inv in Hrn as [r [w5b [Hgr Hrn]]].
  inversion Hgr; subst r w5b. clear Hgr.
  destruct (run_sim vb s0 (rng w5)) as [s1 r1] eqn:Ers.
  apply bind_inv in Hrn as [u3 [w7 [Hst Hset]]].
  destruct u3. apply store_inv in Hst.
  inversion Hset; subst w'. clear Hset. cbn.
  exists vb, s0. rewrite Hst. f_equal.
  rewrite R5, R4', R4, R3 in Ers. cbn in Ers. now rewrite Ers.
Qed.

Lemma single_run_seed_offset_witness :
  (exists vb sim0,
     nth_error (heap (snd (single_run Demo.rng_seed Demo.rng_normal Demo.run_sim Demo.suggest
                             0%nat (PInt 3) (1 # 5)%Q None PNone [] Demo.w0))) 1 =
       Some (fst (Demo.run_sim vb sim0 (snd (Demo.rng_normal (Demo.rng_seed (PInt (1 + 3)))))))) /\
  (forall j, j <> 3 -> 1 + j <> 1 + 3).
Proof.
  apply (single_run_seed_offset Demo.rng_seed Demo.rng_normal Demo.run_sim Demo.suggest
           Demo.w0 0 Demo.template 1 3 (1 # 5)%Q None PNone [] 1%nat
           (snd (single_run Demo.rng_seed Demo.rng_normal Demo.run_sim Demo.suggest
                   0%nat (PInt 3) (1 # 5)%Q None PNone [] Demo.w0)));
    reflexivity.
Defined.

(** ** multi_run: the iteration parameters *)

Lemma iter_n_cases n ip :
  (exists o, iter_n n ip = inr o) \/
  (exists a b, iter_n n ip = inl (ValueError (MsgIterLength a b))).
Proof.
  revert n. induction ip as [|[k v] rest IH]; intros n; cbn; [left; eauto|].
  destruct n as [n0|]; [|apply IH].
  destruct (negb (Z.of_nat (length v) =? n0)); [right; eauto | apply IH].
Qed.

Lemma iter_n_ok_all n0 ip o :
  iter_n (Some n0) ip = inr o -> forall k v, In (k, v) ip -> Z.of_nat (length v) = n0.
Proof.
  revert n0. induction ip as [|[k v] rest IH]; intros n0 H k' v' Hin; cbn in *; [contradiction|].
  destruct (Z.of_nat (length v) =? n0) eqn:Hv; cbn in H; [|discriminate].
  apply Z.eqb_eq in Hv.
  destruct Hin as [Hin|Hin]; [inversion Hin; subst; auto|].
  subst n0. exact (IH _ H k' v' Hin).
Qed.

Lemma iter_n_all_equal n0 ip :
  (forall k v, In (k, v) ip -> Z.of_nat (length v) = n0) -> iter_n (Some n0) ip = inr (Some n0).
Proof.
  induction ip as [|[k v] rest IH]; intros H; cbn; [reflexivity|].
  rewrite (H k v (or_introl eq_refl)), Z.eqb_refl. cbn.
  apply IH. intros k' v' Hin. exact (H k' v' (or_intror Hin)).
Qed.

Lemma collect_length {A} (xs : list (exn + A)) ys : collect xs = inr ys -> length ys = length xs.
Proof.
  revert ys. induction xs as [|[e|a] xs IH]; intros ys H; cbn in H.
  - now inversion H.
  - discriminate.
  - destruct (collect xs) as [e|l] eqn:E; [discriminate|].
    inversion H; subst. cbn. f_equal. now apply IH.
Qed.

Lemma arange_length L : length (arange (Z.of_nat L)) = L.
Proof. unfold arange. now rewrite length_map, Nat2Z.id, length_seq. Qed.

(** C6: [multi_run] with a non-empty [iterpars] mapping: when two of its
    sequences differ in length it raises the InconsistentIterationLength
    [ValueError] with the world untouched, no worker job dispatched; when all
    have the common length [L], exactly [L] jobs are dispatched and, without
    [combine], the [L] resulting sims are returned. *)
Theorem multi_run_iter_lengths {Rng} rng_seed rng_normal run_sim suggest
    (w : World Rng) sim n noise noisepar ip verbose combine :
  ip <> [] ->
  ((exists k1 v1 k2 v2, In (k1, v1) ip /\ In (k2, v2) ip /\ length v1 <> length v2) ->
     exists n0 n1,
       multi_run rng_seed rng_normal run_sim suggest sim n noise noisepar (Some ip) verbose combine w =
       (Raise (ValueError (MsgIterLength n0 n1)), w)) /\
  (forall L, (forall k v, In (k, v) ip -> length v = L) ->
     jobs (snd (multi_run rng_seed rng_normal run_sim suggest sim n noise noisepar (Some ip)
                  verbose combine w)) = (jobs w + L)%nat /\
     (forall sims,
        fst (multi_run rng_seed rng_normal run_sim suggest sim n noise noisepar (Some ip)
               verbose false w) = Ok (Sims sims) -> length sims = L)).
Proof.
  intros Hne. destruct ip as [|[k0 v0] rest]; [congruence|]. split.
  - intros (k1 & v1 & k2 & v2 & H1 & H2 & Hd).
    destruct (iter_n_cases (Some (Z.of_nat (length v0))) rest) as [[o Ho] | (a & b & Hab)].
    + exfalso. apply Hd.
      assert (Hall : forall k v, In (k, v) ((k0, v0) :: rest) -> length v = length v0).
      { intros k v [Hin|Hin]; [now inversion Hin|].
        apply Nat2Z.inj. exact (iter_n_ok_all _ _ _ Ho k v Hin). }
      now rewrite (Hall _ _ H1), (Hall _ _ H2).
    + exists a, b. unfold multi_run. cbn [iter_n]. rewrite Hab. reflexivity.
  - intros L Hall.
    assert (Hit : iter_n None ((k0, v0) :: rest) = inr (Some (Z.of_nat L))).
    { cbn. rewrite (Hall k0 v0 (or_introl eq_refl)). apply iter_n_all_equal.
      intros k v Hin. now rewrite (Hall k v (or_intror Hin)). }
    unfold multi_run. rewrite Hit. cbn [lift_sum lift ret bind].
    unfold parallelize.
    set (tasks := make_tasks (Z.of_nat L) ((k0, v0) :: rest)).
    assert (Ht : length tasks = L) by (unfold tasks, make_tasks; now rewrite length_map, arange_length).
    split; unfold bind at 1; cbv beta.
    + match goal with |- context [collect ?x] => destruct (collect x) as [e|sims] end;
        cbn; [now rewrite Ht|].
      destruct combine; cbn; [|now rewrite Ht].
      destruct (combine_sims (Z.of_nat L) sims); cbn; now rewrite Ht.
    + intros sims.
      match goal with |- context [collect ?x] => destruct (collect x) as [e|sims'] eqn:E end;
        cbn; [discriminate|].
      intros H. inversion H; subst sims'.
      rewrite (collect_length _ _ E), length_map. exact Ht.
Qed.

Lemma multi_run_iter_lengths_witness :
  (exists n0 n1,
     multi_run Demo.rng_seed Demo.rng_normal Demo.run_sim Demo.suggest 0%nat 4 0%Q None
       (Some [("beta", [PInt 1; PInt 2]); ("r0", [PInt 1; PInt 2; PInt 3])]) PNone false Demo.w0 =
     (Raise (ValueError (MsgIterLength n0 n1)), Demo.w0)) /\
  (jobs (snd (multi_run Demo.rng_seed Demo.rng_normal Demo.run_sim Demo.suggest 0%nat 4 0%Q None
                (Some [("beta", [PFloat (1 # 10); PFloat (2 # 10); PFloat (3 # 10)])]) PNone false
                Demo.w0)) = (jobs Demo.w0 + 3)%nat /\
   (forall sims,
      fst (multi_run Demo.rng_seed Demo.rng_normal Demo.run_sim Demo.suggest 0%nat 4 0%Q None
             (Some [("beta", [PFloat (1 # 10); PFloat (2 # 10); PFloat (3 # 10)])]) PNone false
             Demo.w0) = Ok (Sims sims) -> length sims = 3%nat)).
Proof.
  split.
  - apply (proj1 (multi_run_iter_lengths Demo.rng_seed Demo.rng_normal Demo.run_sim Demo.suggest
                    Demo.w0 0%nat 4 0%Q None
                    [("beta", [PInt 1; PInt 2]); ("r0", [PInt 1; PInt 2; PInt 3])] PNone false
                    ltac:(discriminate))).
    exists "beta", [PInt 1; PInt 2], "r0", [PInt 1; PInt 2; PInt 3].
    split; [left; reflexivity|]. split; [right; left; reflexivity|]. discriminate.
  - apply (proj2 (multi_run_iter_lengths Demo.rng_seed Demo.rng_normal Demo.run_sim Demo.suggest
                    Demo.w0 0%nat 4 0%Q None
                    [("beta", [PFloat (1 # 10); PFloat (2 # 10); PFloat (3 # 10)])] PNone false
                    ltac:(discriminate))).
    intros k v [H|[]]. now inversion H.
Defined.

(** ** Combining the runs *)

(** C1: the combine scenario. Two runs (seeds 1 and 2) of a model whose
    [new_infections] is a [Result] series give series summing to 50 and 70;
    with [combine=True], [multi_run] does not return a merged sim summing to
    120: [output_sim.results[key] += sim.results[key]] raises [TypeError],
    since [Result] defines no addition. *)
Theorem multi_run_combine_result_typeerror :
  match fst (multi_run Demo.rng_seed Demo.rng_normal Demo.run_sim_ts Demo.suggest
               0%nat 2 0%Q None None PNone false Demo.w0) return Prop with
  | Ok (Sims sims) => map (fun s => series_sum s "new_infections") sims = [Some 50%Q; Some 70%Q]
  | _ => False
  end /\
  fst (multi_run Demo.rng_seed Demo.rng_normal Demo.run_sim_ts Demo.suggest
         0%nat 2 0%Q None None PNone true Demo.w0) = Raise TypeError.
Proof. split; vm_compute; reflexivity. Qed.

(** ** Parameter overrides *)

(** C2: an override of an existing parameter reaches the run only when the
    resolved verbosity is at least 1 ([new_sim[key] = val] sits inside
    [if verbose>=1:]): with [verbose=0] the template's [beta] (times the
    noise factor 1) is kept and the override [beta=9] is dropped without
    error, with [verbose=1] it is applied. An override with an unknown key
    raises at every verbosity. *)
Theorem single_run_override_needs_verbose :
  (exists x, returned_par (single_run Demo.rng_seed Demo.rng_normal Demo.run_sim Demo.suggest
                             0%nat (PInt 0) 0%Q None (PInt 0) [("beta", PFloat 9)] Demo.w0) "beta"
             = Some (PFloat x) /\ (x == 1 # 2)%Q /\ ~ (x == 9)%Q) /\
  (exists x, returned_par (single_run Demo.rng_seed Demo.rng_normal Demo.run_sim Demo.suggest
                             0%nat (PInt 0) 0%Q None (PInt 1) [("beta", PFloat 9)] Demo.w0) "beta"
             = Some (PFloat x) /\ (x == 9)%Q) /\
  (forall verbose, In verbose [PNone; PInt 0; PInt 1] ->
     fst (single_run Demo.rng_seed Demo.rng_normal Demo.run_sim Demo.suggest
            0%nat (PInt 0) 0%Q None verbose [("bta", PFloat 9)] Demo.w0)
     = Raise (KeyError (MsgBadOverride "bta"))).
Proof.
  split; [|split].
  - eexists. split; [vm_compute; reflexivity|]. split; [reflexivity|]. discriminate.
  - eexists. split; [vm_compute; reflexivity|]. reflexivity.
  - intros verbose [<-|[<-|[<-|[]]]]; vm_compute; reflexivity.
Qed.

(** ** Result *)

Section ResultFacts.

Lemma np_index_in_range n i :
  - Z.of_nat n <= i < Z.of_nat n ->
  np_index n i = Some (Z.to_nat (i mod Z.of_nat n)) /\ (Z.to_nat (i mod Z.of_nat n) < n)%nat.
Proof.
  intros Hi. unfold np_index.
  destruct (Z.leb_spec 0 i); destruct (Z.ltb_spec i (Z.of_nat n));
    destruct (Z.leb_spec (- Z.of_nat n) i); destruct (Z.ltb_spec i 0); cbn; try lia.
  - rewrite Z.mod_small by lia. split; [reflexivity|lia].
  - assert (E : i mod Z.of_nat n = Z.of_nat n + i).
    { rewrite <- (Z.mod_add i 1) by lia. rewrite Z.mod_small by lia. lia. }
    rewrite E. split; [reflexivity|lia].
Qed.

Lemma np_index_out_of_range n i :
  (i < - Z.of_nat n \/ Z.of_nat n <= i) -> np_index n i = None.
Proof.
  intros Hi. unfold np_index.
  destruct (Z.leb_spec 0 i); destruct (Z.ltb_spec i (Z.of_nat n));
    destruct (Z.leb_spec (- Z.of_nat n) i); destruct (Z.ltb_spec i 0); cbn; lia || reflexivity.
Qed.

Lemma nth_error_in_range {A} (xs : list A) k :
  (k < length xs)%nat -> exists x, nth_error xs k = Some x.
Proof.
  intros H. destruct (nth_error xs k) eqn:E; [eauto|].
  apply nth_error_None in E. lia.
Qed.

End ResultFacts.

(** X: [Result(name, values, npts)]: given [values] are kept as they are
    and [npts] is then ignored; with neither, the result is empty; with
    only [npts = q] the result holds [int(q)] zeros, that is [floor q]
    zeros for [q >= 0] and none for [-1 < q < 0]; for [q <= -1] the
    constructor raises (the [ValueError] of [np.zeros]). *)
Theorem result_init_sizes name npts scale isp :
  (forall vs, result_init name (Some vs) npts scale isp = Some (mkResult name vs scale isp)) /\
  result_init name None None scale isp = Some (mkResult name [] scale isp) /\
  (forall q, (0 <= q)%Q ->
     result_init name None (Some q) scale isp =
     Some (mkResult name (repeat 0%Q (Z.to_nat (Qfloor q))) scale isp)) /\
  (forall q, (-1 < q)%Q -> (q < 0)%Q ->
     result_init name None (Some q) scale isp = Some (mkResult name [] scale isp)) /\
  (forall q, (q <= -1)%Q -> result_init name None (Some q) scale isp = None).
Proof.
  split; [reflexivity|]. split; [reflexivity|].
  split; [|split]; intros [a b]; unfold Qle, Qlt, result_init, py_int_q; cbn [Qnum Qden] in *;
    intros H; [|intros H'|].
  - rewrite Z.quot_div_nonneg by lia.
    replace (a / Z.pos b <? 0) with false
      by (symmetry; apply Z.ltb_ge; apply Z.div_pos; lia).
    reflexivity.
  - replace a with (- (- a)) by lia. rewrite Z.quot_opp_l by lia.
    rewrite (Z.quot_small (- a)) by lia. reflexivity.
  - replace a with (- (- a)) by lia. rewrite Z.quot_opp_l by lia.
    rewrite Z.quot_div_nonneg by lia.
    assert (0 < - a / Z.pos b) by (apply Z.div_str_pos; lia).
    replace (- (- a / Z.pos b) <? 0) with true by (symmetry; apply Z.ltb_lt; lia).
    reflexivity.
Qed.

Lemma result_init_sizes_witness :
  result_init "x" None (Some (5 # 2)) true false = Some (mkResult "x" [0; 0]%Q true false) /\
  result_init "x" None (Some ((-1) # 2)) true false = Some (mkResult "x" [] true false) /\
  result_init "x" None (Some (-3)%Q) true false = None.
Proof.
  destruct (result_init_sizes "x" None true false) as (_ & _ & H1 & H2 & H3).
  split; [|split].
  - rewrite (H1 (5 # 2)) by (vm_compute; discriminate). reflexivity.
  - apply H2; vm_compute; reflexivity.
  - apply H3. vm_compute. discriminate.
Defined.

(** X: [r[i] = x] followed by [r[i]] returns [x] for every index [i] with
    [-npts <= i < npts]; the assignment keeps the name and the number of
    points, and changes no other position (a position being [i mod npts],
    so [-1] and [npts - 1] are the same one). *)
Theorem result_setitem_getitem r i x :
  - Z.of_nat (result_npts r) <= i < Z.of_nat (result_npts r) ->
  exists r', result_setitem r i x = inr r' /\
    result_getitem r' i = inr x /\
    result_npts r' = result_npts r /\
    r_name r' = r_name r /\
    (forall j, - Z.of_nat (result_npts r) <= j < Z.of_nat (result_npts r) ->
       j mod Z.of_nat (result_npts r) <> i mod Z.of_nat (result_npts r) ->
       result_getitem r' j = result_getitem r j).
Proof.
  unfold result_npts. intros Hi.
  destruct (np_index_in_range _ _ Hi) as [Ei Ki].
  unfold result_setitem. rewrite Ei.
  eexists. split; [reflexivity|].
  unfold result_getitem. cbn [r_values r_name]. rewrite length_list_set, Ei.
  rewrite nth_error_list_set_same by exact Ki.
  split; [reflexivity|]. split; [reflexivity|]. split; [reflexivity|].
  intros j Hj Hne. destruct (np_index_in_range _ _ Hj) as [Ej Kj]. rewrite Ej.
  rewrite nth_error_list_set_other; [reflexivity|].
  intros Heq. apply Hne. apply Z2Nat.inj in Heq; [lia| |]; apply Z.mod_pos_bound; lia.
Qed.

Lemma result_setitem_getitem_witness :
  (- 3 <= -1 < 3) /\
  exists r', result_setitem (mkResult "r" [1; 2; 3]%Q true false) (-1) 7%Q = inr r' /\
    result_getitem r' (-1) = inr 7%Q /\ result_npts r' = 3%nat /\ r_name r' = "r" /\
    (forall j, - 3 <= j < 3 -> j mod 3 <> (-1) mod 3 ->
       result_getitem r' j = result_getitem (mkResult "r" [1; 2; 3]%Q true false) j).
Proof.
  split; [lia|].
  apply (result_setitem_getitem (mkResult "r" [1; 2; 3]%Q true false) (-1) 7%Q).
  cbn. lia.
Defined.

(** X: numpy indexing of a [Result]: a negative index [i] with
    [-npts <= i < 0] reads the same point as [npts + i]; an index outside
    [-npts <= i < npts] raises [IndexError], on reading and on writing. *)
Theorem result_index_negative_and_bounds r i :
  (- Z.of_nat (result_npts r) <= i < 0 ->
     result_getitem r i = result_getitem r (Z.of_nat (result_npts r) + i)) /\
  ((i < - Z.of_nat (result_npts r) \/ Z.of_nat (result_npts r) <= i) ->
     result_getitem r i = inl IndexError /\ forall x, result_setitem r i x = inl IndexError).
Proof.
  unfold result_npts. split.
  - intros Hi. unfold result_getitem.
    destruct (np_index_in_range (length (r_values r)) i ltac:(lia)) as [E1 _].
    destruct (np_index_in_range (length (r_values r)) (Z.of_nat (length (r_values r)) + i)
                ltac:(lia)) as [E2 _].
    rewrite E1, E2.
    replace ((Z.of_nat (length (r_values r)) + i) mod Z.of_nat (length (r_values r)))
      with (i mod Z.of_nat (length (r_values r))); [reflexivity|].
    rewrite <- (Z.mod_add i 1) by lia. f_equal. lia.
  - intros Hi. unfold result_getitem, result_setitem.
    rewrite np_index_out_of_range by exact Hi. split; reflexivity.
Qed.

Lemma result_index_negative_and_bounds_witness :
  result_getitem (mkResult "r" [1; 2; 3]%Q true false) (-1) =
    result_getitem (mkResult "r" [1; 2; 3]%Q true false) 2 /\
  result_getitem (mkResult "r" [1; 2; 3]%Q true false) 3 = inl IndexError.
Proof.
  split.
  - apply (proj1 (result_index_negative_and_bounds (mkResult "r" [1; 2; 3]%Q true false) (-1))).
    cbn. lia.
  - apply (proj2 (result_index_negative_and_bounds (mkResult "r" [1; 2; 3]%Q true false) 3)).
    cbn. lia.
Defined.

(** ** Generic facts on association lists *)

Section AssocFacts.
Context {K V : Type} (eqb : K -> K -> bool) (Heqb : forall x y, eqb x y = true <-> x = y).

Lemma assoc_get_not_in (d : list (K * V)) k : ~ In k (map fst d) -> assoc_get eqb d k = None.
Proof.
  induction d as [|[k' v'] d IH]; cbn; intros H; auto.
  destruct (eqb k k') eqn:E.
  - apply Heqb in E. subst. tauto.
  - apply IH. tauto.
Qed.

Lemma assoc_set_absent (d : list (K * V)) k v :
  ~ In k (map fst d) -> assoc_set eqb d k v = (d ++ [(k, v)])%list.
Proof.
  induction d as [|[k' v'] d IH]; cbn; intros H; auto.
  destruct (eqb k k') eqn:E.
  - apply Heqb in E. subst. tauto.
  - rewrite IH by tauto. reflexivity.
Qed.

Lemma assoc_set_keys (d : list (K * V)) k v :
  map fst (assoc_set eqb d k v) =
  if existsb (eqb k) (map fst d) then map fst d else (map fst d ++ [k])%list.
Proof.
  induction d as [|[k' v'] d IH]; cbn; auto.
  destruct (eqb k k') eqn:E; cbn; auto.
  rewrite IH. destruct (existsb (eqb k) (map fst d)); reflexivity.
Qed.

Lemma existsb_eqb_In k ks : existsb (eqb k) ks = true <-> In k ks.
Proof.
  rewrite existsb_exists. split.
  - intros (x & Hx & E). apply Heqb in E. now subst.
  - intros H. exists k. split; [exact H|]. now apply Heqb.
Qed.

(** [d.update(m)] reads [m] where [m] has the key, [d] elsewhere. *)
Lemma assoc_update_get (d m : list (K * V)) k :
  NoDup (map fst m) ->
  assoc_get eqb (assoc_update eqb d m) k =
  match assoc_get eqb m k with Some v => Some v | None => assoc_get eqb d k end.
Proof.
  unfold assoc_update.
  revert d. induction m as [|[k0 v0] m IH]; intros d Hnd; cbn; auto.
  inversion Hnd as [|? ? Hnotin Hnd']; subst.
  rewrite IH by exact Hnd'. cbn.
  destruct (eqb k k0) eqn:E.
  - apply Heqb in E. subst k0.
    rewrite (assoc_get_not_in m k Hnotin). apply (assoc_get_set_same eqb Heqb).
  - destruct (assoc_get eqb m k); auto.
    apply (assoc_get_set_other eqb Heqb). intros Hk. rewrite Hk in E.
    assert (eqb k0 k0 = true) by (now apply Heqb). congruence.
Qed.

(** Setting keys that are all present already keeps the length. *)
Lemma assoc_update_length (d m : list (K * V)) :
  (forall k, In k (map fst m) -> In k (map fst d)) ->
  length (assoc_update eqb d m) = length d.
Proof.
  unfold assoc_update.
  revert d. induction m as [|[k0 v0] m IH]; intros d Hin; cbn; auto.
  rewrite IH.
  - rewrite <- !(length_map fst). rewrite assoc_set_keys.
    replace (existsb (eqb k0) (map fst d)) with true; [reflexivity|].
    symmetry. apply existsb_eqb_In. apply Hin. now left.
  - intros k Hk. rewrite assoc_set_keys.
    destruct (existsb (eqb k0) (map fst d)); [|apply in_or_app; left];
      apply Hin; now right.
Qed.

End AssocFacts.

(** ** Sim.npts and Sim.tvec *)

Section NptsFacts.
Context {Rng : Type}.

Lemma arange_length_Z k : 0 <= k -> Z.of_nat (length (arange k)) = k.
Proof. intros H. unfold arange. rewrite length_map, length_seq. lia. Qed.

End NptsFacts.

(** X: for an integer [n_days = d >= -1], [sim.npts] is [d + 1] and
    [sim.tvec] is [0, 1, ..., d], so it has [npts] points; neither
    changes anything. *)
Theorem sim_npts_tvec_int {Rng} (w : World Rng) l s d :
  nth_error (heap w) l = Some s -> dict_get (pars s) "n_days" = Some (PInt d) -> -1 <= d ->
  sim_npts l w = (Ok (d + 1), w) /\
  sim_tvec l w = (Ok (map PInt (map Z.of_nat (seq 0 (Z.to_nat (d + 1))))), w) /\
  Z.of_nat (length (map PInt (map Z.of_nat (seq 0 (Z.to_nat (d + 1)))))) = d + 1.
Proof.
  intros Hl Hd Hge.
  pose proof (getitem_ok w l s "n_days" _ Hl Hd) as G.
  unfold sim_npts, sim_tvec. split; [|split].
  - unfold bind at 1. rewrite G. reflexivity.
  - unfold bind at 1. rewrite G. reflexivity.
  - rewrite !length_map, length_seq. lia.
Qed.

Lemma sim_npts_tvec_int_witness :
  sim_npts 0%nat (mkWorld [sim_init [("n_days", PInt 3)]] 0 0%nat) =
    (Ok 4, mkWorld [sim_init [("n_days", PInt 3)]] 0 0%nat) /\
  sim_tvec 0%nat (mkWorld [sim_init [("n_days", PInt 3)]] 0 0%nat) =
    (Ok [PInt 0; PInt 1; PInt 2; PInt 3], mkWorld [sim_init [("n_days", PInt 3)]] 0 0%nat).
Proof.
  destruct (sim_npts_tvec_int (mkWorld [sim_init [("n_days", PInt 3)]] 0 0%nat) 0%nat
              (sim_init [("n_days", PInt 3)]) 3 eq_refl eq_refl ltac:(lia)) as (H1 & H2 & _).
  split; [exact H1|exact H2].
Defined.



(** X: [sim.npts] and [sim.tvec] raise the [KeyError] of [__getitem__]
    when there is no ['n_days'] parameter, and [TypeError] when it is
    neither an int nor a float; the world is left as it was. *)
Theorem sim_npts_tvec_errors {Rng} (w : World Rng) l s :
  nth_error (heap w) l = Some s ->
  (dict_get (pars s) "n_days" = None ->
     sim_npts l w = (Raise (KeyError (MsgMissingKey "n_days")), w) /\
     sim_tvec l w = (Raise (KeyError (MsgMissingKey "n_days")), w)) /\
  (forall v, dict_get (pars s) "n_days" = Some v -> (forall z, v <> PInt z) -> (forall q, v <> PFloat q) ->
     sim_npts l w = (Raise TypeError, w) /\ sim_tvec l w = (Raise TypeError, w)).
Proof.
  intros Hl. split.
  - intros Hd. pose proof (getitem_missing w l s "n_days" Hl Hd) as G.
    unfold sim_npts, sim_tvec. unfold bind at 1 3. rewrite G. split; reflexivity.
  - intros v Hd Hz Hq. pose proof (getitem_ok w l s "n_days" _ Hl Hd) as G.
    unfold sim_npts, sim_tvec. unfold bind at 1 3. rewrite G.
    destruct v as [|z|q|str]; [| now destruct (Hz z) | now destruct (Hq q) |]; split; reflexivity.
Qed.

Lemma sim_npts_tvec_errors_witness :
  sim_npts 0%nat (mkWorld [sim_init [("n", PInt 3)]] 0 0%nat) =
    (Raise (KeyError (MsgMissingKey "n_days")), mkWorld [sim_init [("n", PInt 3)]] 0 0%nat) /\
  sim_tvec 0%nat (mkWorld [sim_init [("n_days", PStr "30")]] 0 0%nat) =
    (Raise TypeError, mkWorld [sim_init [("n_days", PStr "30")]] 0 0%nat).
Proof.
  split.
  - apply (proj1 (sim_npts_tvec_errors (mkWorld [sim_init [("n", PInt 3)]] 0 0%nat) 0%nat
                    (sim_init [("n", PInt 3)]) eq_refl) eq_refl).
  - apply (proj2 (sim_npts_tvec_errors (mkWorld [sim_init [("n_days", PStr "30")]] 0 0%nat) 0%nat
                    (sim_init [("n_days", PStr "30")]) eq_refl) (PStr "30") eq_refl);
      discriminate.
Defined.

(** ** _make_resdict *)

Section ResdictFacts.
Context {Rng : Type}.

Definition rd_entry (kr : string * resval) : string * rdval := (fst kr, RDValues (res_values (snd kr))).

Lemma resdict_loop_spec (w : World Rng) l for_json n acc items :
  (for_json = false -> sim_npts l w = (Ok n, w)) ->
  NoDup (map fst items) -> (forall k, In k (map fst items) -> ~ In k (map fst acc)) ->
  resdict_loop l for_json acc items w =
  (Ok (acc ++ map rd_entry
          (filter (fun kr => for_json || (Z.of_nat (length (res_values (snd kr))) =? n)) items))%list,
   w).
Proof.
  intros Hn. revert acc. induction items as [|[k r] items IH]; intros acc Hnd Hdis; cbn.
  - now rewrite app_nil_r.
  - inversion Hnd as [|? ? Hk Hnd']; subst.
    assert (Hacc : ~ In k (map fst acc)) by (apply Hdis; now left).
    assert (Hrest : forall k', In k' (map fst items) ->
              ~ In k' (map fst (acc ++ [(k, RDValues (res_values r))])%list)).
    { intros k' Hin. rewrite map_app. cbn. intros Hin'. apply in_app_or in Hin' as [Hin'|[Hin'|[]]].
      - exact (Hdis k' (or_intror Hin) Hin').
      - subst. contradiction. }
    destruct for_json; cbn.
    + rewrite (assoc_set_absent String.eqb String.eqb_eq) by exact Hacc.
      rewrite IH by assumption. cbn. now rewrite <- app_assoc.
    + assert (Hkeep : bind (sim_npts l) (fun n0 => ret (Z.of_nat (length (res_values r)) =? n0)) w =
                   (Ok (Z.of_nat (length (res_values r)) =? n), w))
        by (rewrite (bind_ok _ _ w _ _ (Hn eq_refl)); reflexivity).
      rewrite (bind_ok _ _ w _ _ Hkeep).
      destruct (Z.of_nat (length (res_values r)) =? n); cbn.
      * rewrite (assoc_set_absent String.eqb String.eqb_eq) by exact Hacc.
        rewrite IH by assumption. cbn. now rewrite <- app_assoc.
      * apply IH; [assumption|]. intros k' Hin. apply Hdis. now right.
Qed.

Lemma resdict_loop_json_update (w : World Rng) l acc items :
  resdict_loop l true acc items w = (Ok (assoc_update String.eqb acc (map rd_entry items)), w).
Proof.
  revert acc. induction items as [|[k r] items IH]; intros acc; cbn; [reflexivity|].
  apply IH.
Qed.

Lemma resdict_loop_raise (w : World Rng) l acc items e :
  sim_npts l w = (Raise e, w) -> items <> [] ->
  resdict_loop l false acc items w = (Raise e, w).
Proof.
  intros He Hne. destruct items as [|[k r] items]; [congruence|].
  cbn [resdict_loop].
  assert (Hk : bind (sim_npts l) (fun n0 => ret (Z.of_nat (length (res_values r)) =? n0)) w =
               (Raise e, w)) by (exact (bind_raise _ _ w _ _ He)).
  exact (bind_raise _ _ w _ _ Hk).
Qed.

Lemma assoc_get_map_entries (items : list (string * resval)) k :
  assoc_get String.eqb (map rd_entry items) k =
  option_map (fun r => RDValues (res_values r)) (assoc_get String.eqb items k).
Proof.
  induction items as [|[k' r] items IH]; cbn; auto.
  destruct (String.eqb k k'); auto.
Qed.

Lemma map_fst_rd_entry (items : list (string * resval)) : map fst (map rd_entry items) = map fst items.
Proof. rewrite map_map. reflexivity. Qed.

End ResdictFacts.

(** X: [_make_resdict(for_json=True)] of a sim whose results have distinct
    names, none of them ['timeseries_keys']: the dict holds
    ['timeseries_keys'] (the [reskeys]) first, then every result in order
    with its values; it does not read [npts], so it works without an
    ['n_days'] parameter. *)
Theorem make_resdict_json {Rng} (w : World Rng) l s reskeys :
  nth_error (heap w) l = Some s -> NoDup (map fst (results s)) ->
  ~ In "timeseries_keys" (map fst (results s)) ->
  make_resdict l reskeys true w =
  (Ok (("timeseries_keys", RDKeys reskeys)
         :: map (fun kr => (fst kr, RDValues (res_values (snd kr)))) (results s)), w).
Proof.
  intros Hl Hnd Hts. unfold make_resdict. rewrite (bind_ok _ _ w _ _ (load_ok w l s Hl)). cbn beta iota.
  rewrite (resdict_loop_spec w l true 0 _ _ (fun H => ltac:(discriminate H)) Hnd).
  - rewrite filter_true. reflexivity.
  - intros k Hin [E|[]]. cbn in E. subst. contradiction.
Qed.

Lemma make_resdict_json_witness :
  make_resdict 0%nat ["cum"] true
    (mkWorld [mkSim [] [] [("cum", RArray [1; 2]%Q); ("new", RResult (mkResult "new" [3]%Q true false))] ["cum"]] 0 0%nat) =
  (Ok [("timeseries_keys", RDKeys ["cum"]); ("cum", RDValues [1; 2]%Q); ("new", RDValues [3]%Q)],
   mkWorld [mkSim [] [] [("cum", RArray [1; 2]%Q); ("new", RResult (mkResult "new" [3]%Q true false))] ["cum"]] 0 0%nat).
Proof.
  apply (make_resdict_json
           (mkWorld [mkSim [] [] [("cum", RArray [1; 2]%Q); ("new", RResult (mkResult "new" [3]%Q true false))] ["cum"]] 0 0%nat)
           0%nat
           (mkSim [] [] [("cum", RArray [1; 2]%Q); ("new", RResult (mkResult "new" [3]%Q true false))] ["cum"])
           ["cum"] eq_refl).
  - repeat constructor; cbn; intuition discriminate.
  - cbn. intuition discriminate.
Defined.

(** X: in [_make_resdict(for_json=True)] a result named
    ['timeseries_keys'] replaces the [reskeys] entry: every key reads the
    values of the result of that name if there is one, else the
    [reskeys] for ['timeseries_keys'], else nothing. *)
Theorem make_resdict_json_lookup {Rng} (w : World Rng) l s reskeys :
  nth_error (heap w) l = Some s -> NoDup (map fst (results s)) ->
  exists d, make_resdict l reskeys true w = (Ok d, w) /\
    forall k, assoc_get String.eqb d k =
      match assoc_get String.eqb (results s) k with
      | Some r => Some (RDValues (res_values r))
      | None => if String.eqb k "timeseries_keys" then Some (RDKeys reskeys) else None
      end.
Proof.
  intros Hl Hnd. unfold make_resdict. rewrite (bind_ok _ _ w _ _ (load_ok w l s Hl)). cbn beta iota.
  rewrite resdict_loop_json_update. eexists. split; [reflexivity|].
  intros k. rewrite (assoc_update_get String.eqb String.eqb_eq) by now rewrite map_fst_rd_entry.
  rewrite assoc_get_map_entries.
  destruct (assoc_get String.eqb (results s) k); reflexivity.
Qed.

Lemma make_resdict_json_lookup_witness :
  exists d,
    make_resdict 0%nat ["cum"] true
      (mkWorld [mkSim [] [] [("timeseries_keys", RArray [5]%Q)] []] 0 0%nat) =
      (Ok d, mkWorld [mkSim [] [] [("timeseries_keys", RArray [5]%Q)] []] 0 0%nat) /\
    forall k, assoc_get String.eqb d k =
      match assoc_get String.eqb [("timeseries_keys", RArray [5]%Q)] k with
      | Some r => Some (RDValues (res_values r))
      | None => if String.eqb k "timeseries_keys" then Some (RDKeys ["cum"]) else None
      end.
Proof.
  apply (make_resdict_json_lookup (mkWorld [mkSim [] [] [("timeseries_keys", RArray [5]%Q)] []] 0 0%nat)
           0%nat (mkSim [] [] [("timeseries_keys", RArray [5]%Q)] []) ["cum"] eq_refl).
  repeat constructor. intros [].
Defined.

(** X: [_make_resdict(for_json=False)] with an int ['n_days' = d] keeps,
    in order and without a ['timeseries_keys'] entry, exactly the results
    with [d + 1] (that is [npts]) points; without an ['n_days'] parameter
    it raises the [KeyError] of [__getitem__] as soon as there is a
    result. *)
Theorem make_resdict_table {Rng} (w : World Rng) l s reskeys :
  nth_error (heap w) l = Some s -> NoDup (map fst (results s)) ->
  (forall d, dict_get (pars s) "n_days" = Some (PInt d) ->
     make_resdict l reskeys false w =
     (Ok (map (fun kr => (fst kr, RDValues (res_values (snd kr))))
            (filter (fun kr => Z.of_nat (length (res_values (snd kr))) =? d + 1) (results s))), w)) /\
  (dict_get (pars s) "n_days" = None -> results s <> [] ->
     make_resdict l reskeys false w = (Raise (KeyError (MsgMissingKey "n_days")), w)).
Proof.
  intros Hl Hnd. unfold make_resdict. rewrite (bind_ok _ _ w _ _ (load_ok w l s Hl)). cbn beta iota.
  split.
  - intros d Hd.
    assert (Hn : sim_npts l w = (Ok (d + 1), w)).
    { pose proof (getitem_ok w l s "n_days" _ Hl Hd) as G.
      unfold sim_npts. unfold bind at 1. rewrite G. reflexivity. }
    rewrite (resdict_loop_spec w l false (d + 1) [] _ (fun _ => Hn) Hnd) by (intros k _ []).
    reflexivity.
  - intros Hd Hne. apply resdict_loop_raise; [|exact Hne].
    pose proof (getitem_missing w l s "n_days" Hl Hd) as G.
    unfold sim_npts. unfold bind at 1. rewrite G. reflexivity.
Qed.

Lemma make_resdict_table_witness :
  make_resdict 0%nat [] false
    (mkWorld [mkSim [("n_days", PInt 1)] [] [("a", RArray [1; 2]%Q); ("b", RArray [1; 2; 3]%Q)] []] 0 0%nat) =
  (Ok [("a", RDValues [1; 2]%Q)],
   mkWorld [mkSim [("n_days", PInt 1)] [] [("a", RArray [1; 2]%Q); ("b", RArray [1; 2; 3]%Q)] []] 0 0%nat).
Proof.
  apply (proj1 (make_resdict_table
                  (mkWorld [mkSim [("n_days", PInt 1)] [] [("a", RArray [1; 2]%Q); ("b", RArray [1; 2; 3]%Q)] []] 0 0%nat)
                  0%nat (mkSim [("n_days", PInt 1)] [] [("a", RArray [1; 2]%Q); ("b", RArray [1; 2; 3]%Q)] [])
                  [] eq_refl ltac:(repeat constructor; cbn; intuition discriminate)) 1 eq_refl).
Defined.

(** ** set_seed *)

Section SeedMore.
Context {Rng : Type} (rng_seed : pval -> Rng) (suggest : string -> list string -> option string).

Lemma getitem_raise_world (w : World Rng) l k e w' :
  getitem l k w = (Raise e, w') -> w' = w.
Proof.
  unfold getitem, bind, load. destruct (nth_error (heap w) l); [|intros H; now inversion H].
  cbn. destruct (dict_get (pars s) k); intros H; now inversion H.
Qed.

Lemma setitem_raise_world (w : World Rng) l k v e w' :
  setitem suggest l k v w = (Raise e, w') -> w' = w.
Proof.
  unfold setitem, bind, load. destruct (nth_error (heap w) l); [|intros H; now inversion H].
  cbn. destruct (dict_mem k (pars s)).
  - unfold store. destruct (Nat.ltb l (length (heap w))); intros H; now inversion H.
  - destruct (suggest k (keys (pars s))) as [sug|]; [destruct (String.eqb sug "")|];
      intros H; now inversion H.
Qed.

End SeedMore.

(** X: [sim.set_seed(x)] for a seed [x] on a sim that has a ['seed']
    parameter stores [x], changes no other parameter and restarts the
    random stream from [x]; a following [sim.set_seed()] then restarts
    it from the stored seed, that is, leaves the world exactly as it is. *)
Theorem set_seed_then_replay {Rng} (rng_seed : pval -> Rng) suggest (w : World Rng) l s x :
  nth_error (heap w) l = Some s -> dict_mem "seed" (pars s) = true -> x <> PNone ->
  exists w1, set_seed rng_seed suggest l x false w = (Ok tt, w1) /\
    rng w1 = rng_seed x /\ fst (getitem l "seed" w1) = Ok x /\
    (forall k, k <> "seed" -> fst (getitem l k w1) = fst (getitem l k w)) /\
    set_seed rng_seed suggest l PNone false w1 = (Ok tt, w1).
Proof.
  intros Hl Hm Hx.
  set (s' := set_pars s (dict_set (pars s) "seed" x)).
  set (w1 := mkWorld (list_set (heap w) l s') (rng_seed x) (jobs w)).
  assert (Hs : set_seed rng_seed suggest l x false w = (Ok tt, w1)).
  { unfold set_seed. destruct x; [congruence| | |];
      (rewrite (bind_ok _ _ w _ _ (setitem_ok suggest w l s "seed" _ Hl Hm)); reflexivity). }
  assert (Hl1 : nth_error (heap w1) l = Some s').
  { cbn. apply nth_error_list_set_same. eapply nth_error_lt. exact Hl. }
  assert (Hg : getitem l "seed" w1 = (Ok x, w1)).
  { apply (getitem_ok w1 l s'). exact Hl1. apply dict_get_set_same. }
  exists w1. split; [exact Hs|]. split; [reflexivity|]. split; [now rewrite Hg|].
  split.
  - intros k Hk. unfold getitem. rewrite (bind_ok _ _ w1 _ _ (load_ok w1 l s' Hl1)).
    rewrite (bind_ok _ _ w _ _ (load_ok w l s Hl)). cbn [pars s' set_pars].
    rewrite dict_get_set_other by exact Hk.
    destruct (dict_get (pars s) k); reflexivity.
  - unfold set_seed. rewrite (bind_ok _ _ w1 _ _ Hg). reflexivity.
Qed.

Lemma set_seed_then_replay_witness :
  exists w1, set_seed Demo.rng_seed Demo.suggest 0%nat (PInt 42) false Demo.w0 = (Ok tt, w1) /\
    rng w1 = Demo.rng_seed (PInt 42) /\ fst (getitem 0%nat "seed" w1) = Ok (PInt 42) /\
    (forall k, k <> "seed" -> fst (getitem 0%nat k w1) = fst (getitem 0%nat k Demo.w0)) /\
    set_seed Demo.rng_seed Demo.suggest 0%nat PNone false w1 = (Ok tt, w1).
Proof.
  apply (set_seed_then_replay Demo.rng_seed Demo.suggest Demo.w0 0%nat Demo.template (PInt 42)
           eq_refl eq_refl). discriminate.
Defined.

(** X: [sim.set_seed] changes nothing when it raises: not the parameters
    and not the random stream. It raises [ValueError] whenever a seed is
    given together with [randomize=True], and a [KeyError] when the sim
    has no ['seed'] parameter (with or without a seed given). *)
Theorem set_seed_raise_atomic {Rng} (rng_seed : pval -> Rng) suggest (w : World Rng) l seed randomize :
  (forall e w', set_seed rng_seed suggest l seed randomize w = (Raise e, w') -> w' = w) /\
  (seed <> PNone -> set_seed rng_seed suggest l seed true w = (Raise (ValueError MsgSeedAndRandomize), w)) /\
  (forall s, nth_error (heap w) l = Some s -> dict_mem "seed" (pars s) = false ->
     exists m, set_seed rng_seed suggest l seed false w = (Raise (KeyError m), w)).
Proof.
  split; [|split].
  - intros e w'. unfold set_seed. destruct randomize.
    + destruct seed; intros H; inversion H; reflexivity.
    + destruct seed; unfold bind.
      * destruct (getitem l "seed" w) as [[v|e0] w0] eqn:G; intros H; inversion H; subst.
        eapply getitem_raise_world. exact G.
      * destruct (setitem suggest l "seed" (PInt z) w) as [[v|e0] w0] eqn:G; intros H; inversion H; subst.
        eapply setitem_raise_world. exact G.
      * destruct (setitem suggest l "seed" (PFloat q) w) as [[v|e0] w0] eqn:G; intros H; inversion H; subst.
        eapply setitem_raise_world. exact G.
      * destruct (setitem suggest l "seed" (PStr s) w) as [[v|e0] w0] eqn:G; intros H; inversion H; subst.
        eapply setitem_raise_world. exact G.
  - intros Hs. unfold set_seed. destruct seed; [congruence| | |]; reflexivity.
  - intros s Hl Hm. unfold set_seed. destruct seed.
    + exists (MsgMissingKey "seed").
      rewrite (bind_raise _ _ w _ _ (getitem_missing w l s "seed" Hl (dict_mem_false_get _ _ Hm))).
      reflexivity.
    + destruct (setitem_absent suggest w l s "seed" (PInt z) Hl Hm) as [m [Hm' _]].
      exists m. now rewrite (bind_raise _ _ w _ _ Hm').
    + destruct (setitem_absent suggest w l s "seed" (PFloat q) Hl Hm) as [m [Hm' _]].
      exists m. now rewrite (bind_raise _ _ w _ _ Hm').
    + destruct (setitem_absent suggest w l s "seed" (PStr s0) Hl Hm) as [m [Hm' _]].
      exists m. now rewrite (bind_raise _ _ w _ _ Hm').
Qed.

Lemma set_seed_raise_atomic_witness :
  set_seed Demo.rng_seed Demo.suggest 0%nat (PInt 3) true Demo.w0 =
    (Raise (ValueError MsgSeedAndRandomize), Demo.w0) /\
  exists m, set_seed Demo.rng_seed Demo.suggest 0%nat (PInt 3) false
              (mkWorld [sim_init [("n", PInt 1)]] 0 0%nat) =
            (Raise (KeyError m), mkWorld [sim_init [("n", PInt 1)]] 0 0%nat).
Proof.
  split.
  - apply (proj1 (proj2 (set_seed_raise_atomic Demo.rng_seed Demo.suggest Demo.w0 0%nat (PInt 3) true))).
    discriminate.
  - apply (proj2 (proj2 (set_seed_raise_atomic Demo.rng_seed Demo.suggest
                          (mkWorld [sim_init [("n", PInt 1)]] 0 0%nat) 0%nat (PInt 3) false))
             (sim_init [("n", PInt 1)]) eq_refl eq_refl).
Defined.

(** ** update_pars: order of the keys *)





(** ** multi_run: the paths without [iterpars] *)

Section MultiFacts.

Lemma collect_nth {A} (xs : list (exn + A)) ys k y :
  collect xs = inr ys -> nth_error ys k = Some y -> nth_error xs k = Some (inr y).
Proof.
  revert ys k. induction xs as [|[e|a] xs IH]; intros ys k H Hk; cbn in H.
  - inversion H; subst. destruct k; discriminate.
  - discriminate.
  - destruct (collect xs) as [e|l] eqn:E; [discriminate|].
    inversion H; subst. destruct k as [|k]; cbn in Hk |- *.
    + now inversion Hk.
    + eapply IH; [reflexivity|exact Hk].
Qed.

Lemma nth_error_seq_val a m k j : nth_error (seq a m) k = Some j -> j = (a + k)%nat.
Proof.
  revert a k. induction m as [|m IH]; intros a k H; [destruct k; discriminate|].
  destruct k as [|k]; cbn in H.
  - inversion H. lia.
  - apply IH in H. lia.
Qed.

Lemma nth_error_arange n k x : nth_error (arange n) k = Some x -> x = Z.of_nat k.
Proof.
  unfold arange. rewrite nth_error_map.
  destruct (nth_error (seq 0 (Z.to_nat n)) k) eqn:E; cbn; intros H; inversion H; subst.
  apply nth_error_seq_val in E. now subst.
Qed.

Lemma make_tasks_no_iterpars n : make_tasks n [] = map (fun i => (PInt i, [])) (arange n).
Proof. reflexivity. Qed.

Lemma length_make_tasks_no_iterpars n : length (make_tasks n []) = Z.to_nat n.
Proof.
  rewrite make_tasks_no_iterpars, length_map. unfold arange. now rewrite length_map, length_seq.
Qed.

End MultiFacts.

(** X: [multi_run(sim, n)] without [iterpars] and without [combine]:
    the parent dispatches [n] jobs (none for [n <= 0]) and changes no
    object and not its random stream; on success it returns [n] sims, the
    [k]-th of which is what [single_run(sim, ind=k)] returns when run on
    its own from the parent's state: the runs do not see each other. *)
Theorem multi_run_independent_runs {Rng} rng_seed rng_normal run_sim suggest
    (w : World Rng) sim n noise noisepar verbose :
  snd (multi_run rng_seed rng_normal run_sim suggest sim n noise noisepar None verbose false w) =
    mkWorld (heap w) (rng w) (jobs w + Z.to_nat n) /\
  (forall sims,
     fst (multi_run rng_seed rng_normal run_sim suggest sim n noise noisepar None verbose false w) =
       Ok (Sims sims) ->
     length sims = Z.to_nat n /\
     forall k s, nth_error sims k = Some s ->
       exists l w', single_run rng_seed rng_normal run_sim suggest sim (PInt (Z.of_nat k)) noise noisepar
                      verbose [] w = (Ok l, w') /\ nth_error (heap w') l = Some s).
Proof.
  unfold multi_run. cbn [ret bind lift]. unfold parallelize. unfold bind. cbv beta.
  rewrite length_make_tasks_no_iterpars.
  destruct (collect (map (worker rng_seed rng_normal run_sim suggest sim noise noisepar verbose w)
                       (make_tasks n []))) as [e|sims0] eqn:E; cbn.
  - split; [reflexivity|]. discriminate.
  - split; [reflexivity|]. intros sims H. inversion H; subst sims0. clear H. split.
    + rewrite (collect_length _ _ E), length_map. apply length_make_tasks_no_iterpars.
    + intros k s Hk. pose proof (collect_nth _ _ _ _ E Hk) as Hx.
      rewrite nth_error_map, make_tasks_no_iterpars, nth_error_map in Hx.
      destruct (nth_error (arange n) k) as [i|] eqn:Ei; [|discriminate].
      apply nth_error_arange in Ei. subst i. cbn in Hx. inversion Hx as [Hw]. clear Hx.
      unfold worker in Hw. cbn [fst snd] in Hw.
      destruct (single_run rng_seed rng_normal run_sim suggest sim (PInt (Z.of_nat k)) noise noisepar
                  verbose [] w) as [[l|e] w'] eqn:Er; [|discriminate].
      destruct (nth_error (heap w') l) eqn:El; [|discriminate]. inversion Hw; subst.
      exists l, w'. split; [reflexivity|exact El].
Qed.

Lemma multi_run_independent_runs_witness :
  snd (multi_run Demo.rng_seed Demo.rng_normal Demo.run_sim Demo.suggest 0%nat 3 0%Q None None PNone false
         Demo.w0) = mkWorld (heap Demo.w0) (rng Demo.w0) (jobs Demo.w0 + 3) /\
  (forall sims,
     fst (multi_run Demo.rng_seed Demo.rng_normal Demo.run_sim Demo.suggest 0%nat 3 0%Q None None PNone false
            Demo.w0) = Ok (Sims sims) ->
     length sims = 3%nat /\
     forall k s, nth_error sims k = Some s ->
       exists l w', single_run Demo.rng_seed Demo.rng_normal Demo.run_sim Demo.suggest 0%nat
                      (PInt (Z.of_nat k)) 0%Q None PNone [] Demo.w0 = (Ok l, w') /\
                    nth_error (heap w') l = Some s).
Proof.
  apply (multi_run_independent_runs Demo.rng_seed Demo.rng_normal Demo.run_sim Demo.suggest Demo.w0
           0%nat 3 0%Q None PNone).
Defined.

(** X: [multi_run] given an empty [iterpars] dict raises [TypeError]
    ([np.arange(None)]: the loop that would set [n] never runs, and [n]
    was reset to [None]), whatever [n] is, before dispatching any job. *)
Theorem multi_run_empty_iterpars {Rng} rng_seed rng_normal run_sim suggest
    (w : World Rng) sim n noise noisepar verbose combine :
  multi_run rng_seed rng_normal run_sim suggest sim n noise noisepar (Some []) verbose combine w =
    (Raise TypeError, w).
Proof. reflexivity. Qed.



(** ** Combining runs whose results are plain arrays *)

Section CombineFacts.

Lemma res_iadd_same_length a b :
  length a = length b -> res_iadd (RArray a) (RArray b) = inr (RArray (vadd a b)).
Proof. intros H. unfold res_iadd. now rewrite H, Nat.eqb_refl. Qed.

Lemma merge_results_arrays out src ks :
  NoDup ks ->
  (forall k, In k ks -> exists a b, assoc_get String.eqb out k = Some (RArray a) /\
                             assoc_get String.eqb src k = Some (RArray b) /\ length a = length b) ->
  exists r, merge_results out src ks = inr r /\
    (forall k a b, In k ks -> assoc_get String.eqb out k = Some (RArray a) ->
       assoc_get String.eqb src k = Some (RArray b) -> assoc_get String.eqb r k = Some (RArray (vadd a b))) /\
    (forall k, ~ In k ks -> assoc_get String.eqb r k = assoc_get String.eqb out k).
Proof.
  revert out. induction ks as [|k ks IH]; intros out Hnd Hall; cbn.
  - exists out. split; [reflexivity|]. split; [intros ? ? ? []|reflexivity].
  - inversion Hnd as [|? ? Hk Hnd']; subst.
    destruct (Hall k (or_introl eq_refl)) as (a & b & Ha & Hb & Hab).
    rewrite Ha, Hb, (res_iadd_same_length a b Hab).
    set (out' := assoc_set String.eqb out k (RArray (vadd a b))).
    assert (Hout' : forall k', k' <> k -> assoc_get String.eqb out' k' = assoc_get String.eqb out k').
    { intros k' Hne. apply (assoc_get_set_other String.eqb String.eqb_eq). exact Hne. }
    destruct (IH out' Hnd') as (r & Hr & Hin & Hout).
    { intros k' Hk'. assert (k' <> k) by (intros ->; contradiction).
      rewrite Hout' by assumption. apply Hall. now right. }
    exists r. split; [exact Hr|]. split.
    + intros k' a' b' [<-|Hk'] Ha' Hb'.
      * rewrite Hout by exact Hk. unfold out'.
        rewrite Ha in Ha'. rewrite Hb in Hb'. inversion Ha'; inversion Hb'; subst.
        apply (assoc_get_set_same String.eqb String.eqb_eq).
      * apply Hin; [exact Hk'| |exact Hb']. rewrite Hout'; [exact Ha'|]. intros ->. contradiction.
    + intros k' Hk'. rewrite Hout by tauto. apply Hout'. intros ->. apply Hk'. now left.
Qed.

Lemma merge_results_people out_s s r :
  merge_sims out_s [s] = inr r ->
  people r = assoc_update Z.eqb (people out_s) (people s).
Proof.
  cbn. destruct (merge_results (results out_s) (results s) (results_keys s)); [discriminate|].
  intros H. now inversion H.
Qed.

Lemma combine_sims_people_update n s0 s1 s :
  combine_sims n [s0; s1] = inr s -> people s = assoc_update Z.eqb (people s0) (people s1).
Proof.
  unfold combine_sims.
  destruct (dict_get (dict_set (pars s0) "parallelized" (PInt n)) "n") as [nv|]; [|discriminate].
  destruct (py_mul_int nv n) as [nv'|]; [|discriminate].
  intros H. apply merge_results_people in H. exact H.
Qed.

End CombineFacts.

(** X: combining two runs whose results are numpy arrays (not [Result]
    objects), each listed key holding arrays of one length in both runs:
    the merged sim holds, under each key of the second run's
    [results_keys], the element-wise sum of the two arrays and the first
    run's entry under every other key; its parameter ['n'] is the first
    run's [n] times the number of runs, ['parallelized'] is that number,
    and every other parameter is the first run's. *)
Theorem combine_sims_two_arrays n s0 s1 m :
  dict_get (pars s0) "n" = Some (PInt m) -> NoDup (results_keys s1) ->
  (forall k, In k (results_keys s1) -> exists a b,
     assoc_get String.eqb (results s0) k = Some (RArray a) /\
     assoc_get String.eqb (results s1) k = Some (RArray b) /\ length a = length b) ->
  exists s, combine_sims n [s0; s1] = inr s /\
    dict_get (pars s) "n" = Some (PInt (m * n)) /\
    dict_get (pars s) "parallelized" = Some (PInt n) /\
    (forall k, k <> "n" -> k <> "parallelized" -> dict_get (pars s) k = dict_get (pars s0) k) /\
    (forall k a b, In k (results_keys s1) ->
       assoc_get String.eqb (results s0) k = Some (RArray a) ->
       assoc_get String.eqb (results s1) k = Some (RArray b) ->
       assoc_get String.eqb (results s) k = Some (RArray (vadd a b))) /\
    (forall k, ~ In k (results_keys s1) ->
       assoc_get String.eqb (results s) k = assoc_get String.eqb (results s0) k).
Proof.
  intros Hm Hnd Hall.
  destruct (merge_results_arrays (results s0) (results s1) (results_keys s1) Hnd Hall)
    as (r & Hr & Hin & Hout).
  unfold combine_sims.
  rewrite dict_get_set_other by discriminate. rewrite Hm. cbn [py_mul_int merge_sims].
  unfold set_pars. cbn [results people pars results_keys]. rewrite Hr.
  eexists. split; [reflexivity|]. cbn [pars results].
  split; [apply dict_get_set_same|].
  split; [rewrite dict_get_set_other by discriminate; apply dict_get_set_same|].
  split; [intros k Hn Hp; now rewrite !dict_get_set_other by assumption|].
  split; assumption.
Qed.

Lemma combine_sims_two_arrays_witness :
  exists s, combine_sims 2
              [mkSim [("n", PInt 10)] [] [("new", RArray [1; 2]%Q)] ["new"];
               mkSim [("n", PInt 10)] [] [("new", RArray [3; 4]%Q)] ["new"]] = inr s /\
    dict_get (pars s) "n" = Some (PInt (10 * 2)) /\
    dict_get (pars s) "parallelized" = Some (PInt 2) /\
    (forall k, k <> "n" -> k <> "parallelized" -> dict_get (pars s) k = dict_get [("n", PInt 10)] k) /\
    (forall k a b, In k ["new"] ->
       assoc_get String.eqb [("new", RArray [1; 2]%Q)] k = Some (RArray a) ->
       assoc_get String.eqb [("new", RArray [3; 4]%Q)] k = Some (RArray b) ->
       assoc_get String.eqb (results s) k = Some (RArray (vadd a b))) /\
    (forall k, ~ In k ["new"] ->
       assoc_get String.eqb (results s) k = assoc_get String.eqb [("new", RArray [1; 2]%Q)] k).
Proof.
  apply (combine_sims_two_arrays 2 (mkSim [("n", PInt 10)] [] [("new", RArray [1; 2]%Q)] ["new"])
           (mkSim [("n", PInt 10)] [] [("new", RArray [3; 4]%Q)] ["new"]) 10 eq_refl).
  - repeat constructor. intros [].
  - intros k [<-|[]]. exists [1; 2]%Q, [3; 4]%Q. split; [reflexivity|]. split; reflexivity.
Defined.

(** X: combining two runs merges their populations with [dict.update]:
    a person id of the second run reads the second run's person, any
    other id the first run's; when every id of the second run already
    occurs in the first (runs over the same population), the merged
    population has exactly as many people as the first run, not the sum. *)
Theorem combine_sims_two_people n s0 s1 s :
  combine_sims n [s0; s1] = inr s -> NoDup (map fst (people s1)) ->
  (forall id, assoc_get Z.eqb (people s) id =
     match assoc_get Z.eqb (people s1) id with
     | Some p => Some p
     | None => assoc_get Z.eqb (people s0) id
     end) /\
  ((forall id, In id (map fst (people s1)) -> In id (map fst (people s0))) ->
     length (people s) = length (people s0)).
Proof.
  intros H Hnd. rewrite (combine_sims_people_update n s0 s1 s H). split.
  - intros id. apply (assoc_update_get Z.eqb Z.eqb_eq). exact Hnd.
  - apply (assoc_update_length Z.eqb Z.eqb_eq).
Qed.

Lemma combine_sims_two_people_witness :
  combine_sims 2 [mkSim [("n", PInt 10)] [(0, @nil (string * pval)); (1, @nil (string * pval))] [] [];
                  mkSim [("n", PInt 10)] [(1, [("age", PInt 5)])] [] []] =
    inr (mkSim [("n", PInt 20); ("parallelized", PInt 2)]
               [(0, @nil (string * pval)); (1, [("age", PInt 5)])] [] []) /\
  NoDup (map fst [(1, [("age", PInt 5)])]) /\
  (forall id, assoc_get Z.eqb [(0, @nil (string * pval)); (1, [("age", PInt 5)])] id =
     match assoc_get Z.eqb [(1, [("age", PInt 5)])] id with
     | Some p => Some p
     | None => assoc_get Z.eqb [(0, @nil (string * pval)); (1, @nil (string * pval))] id
     end) /\
  ((forall id, In id (map fst [(1, [("age", PInt 5)])]) -> In id (map fst [(0, @nil (string * pval)); (1, @nil (string * pval))])) ->
     length [(0, @nil (string * pval)); (1, [("age", PInt 5)])] = length [(0, @nil (string * pval)); (1, @nil (string * pval))]).
Proof.
  assert (Hc : combine_sims 2 [mkSim [("n", PInt 10)] [(0, @nil (string * pval)); (1, @nil (string * pval))] [] [];
                  mkSim [("n", PInt 10)] [(1, [("age", PInt 5)])] [] []] =
    inr (mkSim [("n", PInt 20); ("parallelized", PInt 2)]
               [(0, @nil (string * pval)); (1, [("age", PInt 5)])] [] [])) by reflexivity.
  assert (Hnd : NoDup (map fst [(1, [("age", PInt 5)])])) by (repeat constructor; intros []).
  split; [exact Hc|]. split; [exact Hnd|].
  exact (combine_sims_two_people 2 _ _ _ Hc Hnd).
Defined.
